(** * ValuesCarousel (src/js/main.js, lines 302-482): a shallow embedding

    The carousel is a module-level closure with mutable state.  We embed it
    as explicit state passing in a small state-and-exception monad: a
    handler either finishes with a new state or throws a TypeError, in
    which case the mutations it made before the throw persist (as in JS).

    JS numbers are modelled as exact rationals [Q]; the integer-valued
    results of [Math.floor] and of [%] on them are kept as [Z].  The
    browser parts (inline [style.transform] of each card, layout
    measurement, the [requestAnimationFrame] queue) are explicit fields of
    the state or of an environment record.

    The [Portfolio] module of the same file (lines 8-225) is embedded
    after the carousel, over a record of the page parts it touches. *)

From Stdlib Require Import QArith Qround ZArith List Bool Lia.
From Stdlib Require Import Setoid Morphisms.
From Stdlib Require Strings.String Strings.Ascii.
Import (notations) Stdlib.Strings.String.
Import ListNotations.

Open Scope Q_scope.

(** ** Data *)

(** [{x, y}] objects *)
Record Pos := mkPos { x : Q; y : Q }.

(** the inline [style.transform] of a card: [''] or
    [`translate(${dx}px, ${dy}px)`] *)
Inductive Transform :=
| TEmpty
| TTranslate (dx dy : Q).

(** the [requestAnimationFrame] queue of the browser: ids handed out in
    order, the ids whose callback ([animate]) is still pending *)
Record Raf := mkRaf { next_id : nat; pending : list nat }.

Record State := mkState {
  grid : bool;                   (* grid !== null *)
  cards : list Transform;        (* the cards, by their style.transform *)
  basePositions : list Pos;
  progress : Q;
  animationId : option nat;      (* null | id *)
  lastTimestamp : option Q;      (* null | ts *)
  positionsCaptured : bool;
  raf : Raf
}.

(** What the page looks like when a handler runs. *)
Record Env := mkEnv {
  innerWidth : Z;                (* window.innerWidth *)
  reducedMotion : bool;          (* matchMedia('(prefers-reduced-motion: reduce)') *)
  gridRect : Pos;                (* grid.getBoundingClientRect() (left, top) *)
  naturalRect : nat -> Pos       (* a card's rect (left, top) without transform *)
}.

(** [CONFIG] *)
Definition speed : Q := 45 # 100.
Definition minWidth : Z := 768.
Definition ringOrder : list Z := [0; 1; 3; 5; 4; 2]%Z.

(** The module's initial values. *)
Definition initialState : State :=
  {| grid := false; cards := []; basePositions := []; progress := 0;
     animationId := None; lastTimestamp := None; positionsCaptured := false;
     raf := mkRaf 0 [] |}.

(** ** The state and exception monad *)

Inductive Res (A : Type) :=
| Ok (a : A) (s : State)
| Throw (s : State).            (* TypeError, state at the throw point *)
Arguments Ok {A}.
Arguments Throw {A}.

Definition M (A : Type) := State -> Res A.

Definition ret {A} (a : A) : M A := fun s => Ok a s.
Definition bind {A B} (m : M A) (k : A -> M B) : M B :=
  fun s => match m s with Ok a s' => k a s' | Throw s' => Throw s' end.
Definition get : M State := fun s => Ok s s.
Definition put (s : State) : M unit := fun _ => Ok tt s.
Definition modify (f : State -> State) : M unit := fun s => Ok tt (f s).
Definition throw {A} : M A := fun s => Throw s.

Notation "x <- m ;; k" := (bind m (fun x => k))
  (at level 61, m at next level, right associativity).
Notation "m ;; k" := (bind m (fun _ => k))
  (at level 61, right associativity).

(** Field updates *)
Definition set_cards (c : list Transform) (s : State) : State :=
  mkState (grid s) c (basePositions s) (progress s) (animationId s)
    (lastTimestamp s) (positionsCaptured s) (raf s).
Definition set_basePositions (b : list Pos) (s : State) : State :=
  mkState (grid s) (cards s) b (progress s) (animationId s)
    (lastTimestamp s) (positionsCaptured s) (raf s).
Definition set_progress (p : Q) (s : State) : State :=
  mkState (grid s) (cards s) (basePositions s) p (animationId s)
    (lastTimestamp s) (positionsCaptured s) (raf s).
Definition set_animationId (a : option nat) (s : State) : State :=
  mkState (grid s) (cards s) (basePositions s) (progress s) a
    (lastTimestamp s) (positionsCaptured s) (raf s).
Definition set_lastTimestamp (l : option Q) (s : State) : State :=
  mkState (grid s) (cards s) (basePositions s) (progress s) (animationId s)
    l (positionsCaptured s) (raf s).
Definition set_positionsCaptured (b : bool) (s : State) : State :=
  mkState (grid s) (cards s) (basePositions s) (progress s) (animationId s)
    (lastTimestamp s) b (raf s).
Definition set_raf (r : Raf) (s : State) : State :=
  mkState (grid s) (cards s) (basePositions s) (progress s) (animationId s)
    (lastTimestamp s) (positionsCaptured s) r.
Definition set_grid (g : bool) (s : State) : State :=
  mkState g (cards s) (basePositions s) (progress s) (animationId s)
    (lastTimestamp s) (positionsCaptured s) (raf s).

(** ** JS primitives *)

(** [Math.trunc] and the remainder operator [%] on numbers *)
Definition Qtrunc (q : Q) : Z :=
  if Qle_bool 0 q then Qfloor q else (- Qfloor (- q))%Z.
Definition jsmod (a b : Q) : Q := a - b * inject_Z (Qtrunc (a / b)).

(** [%] on integer-valued numbers is the truncated remainder *)
Definition zmod (a b : Z) : Z := Z.rem a b.

(** [arr[i]]: [undefined] (here [None]) out of range *)
Definition at_ {A} (l : list A) (i : Z) : option A :=
  if (0 <=? i)%Z then nth_error l (Z.to_nat i) else None.

(** [arr.indexOf(v)] *)
Fixpoint indexOf (l : list Z) (v : Z) : Z :=
  match l with
  | [] => (-1)%Z
  | h :: t => if Z.eqb h v then 0%Z
              else let r := indexOf t v in if (r <? 0)%Z then r else (r + 1)%Z
  end.

Definition lerp (a b t : Q) : Q := a + (b - a) * t.

(** [requestAnimationFrame(animate)] and [cancelAnimationFrame(id)] *)
Definition requestAnimationFrame : M nat :=
  fun s => let r := raf s in
           Ok (next_id r) (set_raf (mkRaf (S (next_id r)) (pending r ++ [next_id r])) s).
Definition cancelAnimationFrame (id : nat) : M unit :=
  modify (fun s => let r := raf s in
                   set_raf (mkRaf (next_id r)
                              (filter (fun j => negb (Nat.eqb j id)) (pending r))) s).

(** [cards.forEach] over the card indices, in order *)
Fixpoint forEach (l : list nat) (f : nat -> M unit) : M unit :=
  match l with
  | [] => ret tt
  | i :: t => f i ;; forEach t f
  end.

(** [arr[i] = v] for an index in range *)
Fixpoint upd {A} (l : list A) (i : nat) (v : A) : list A :=
  match l, i with
  | [], _ => []
  | _ :: t, O => v :: t
  | h :: t, S j => h :: upd t j v
  end.

(** ** Position capture (lines 333-354) *)

(** [c.getBoundingClientRect()] (left, top): the natural rect moved by the
    card's current translation *)
Definition boundingRect (env : Env) (tf : Transform) (i : nat) : Pos :=
  let r := naturalRect env i in
  match tf with
  | TEmpty => r
  | TTranslate dx dy => mkPos (x r + dx) (y r + dy)
  end.

(** [cards.map(c => { const r = c.getBoundingClientRect(); return {x: r.left -
    gridRect.left, y: r.top - gridRect.top}; })] *)
Definition measure (env : Env) (cs : list Transform) : list Pos :=
  map (fun '(i, tf) =>
         let r := boundingRect env tf i in
         mkPos (x r - x (gridRect env)) (y r - y (gridRect env)))
      (combine (seq 0 (length cs)) cs).

Definition captureBasePositions (env : Env) : M unit :=
  s <- get;;
  let savedTransforms := cards s in
  (* Temporarily strip transforms to read natural positions *)
  modify (set_cards (map (fun _ => TEmpty) (cards s)));;
  s1 <- get;;
  modify (set_basePositions (measure env (cards s1)));;
  (* Restore transforms (so frozen cards don't jump) *)
  modify (set_cards savedTransforms);;
  modify (set_positionsCaptured true).

(** ** Per-frame update (lines 360-388) *)

(** [effective], [posA], [posB], [t] for a card at [ringPos] *)
Definition ringGeometry (ringPos : Z) (progress : Q) : Q * Z * Z * Q :=
  let len := Z.of_nat (length ringOrder) in
  let effective := jsmod (inject_Z ringPos + progress) (inject_Z len) in
  let posA := zmod (Qfloor effective) len in
  let posB := zmod (posA + 1) len in
  let t := effective - inject_Z (Qfloor effective) in
  (effective, posA, posB, t).

(** what one iteration of the [forEach] does to its card *)
Inductive CardOutcome :=
| Skip                           (* if (ringPos === -1) return; *)
| SetTransform (tf : Transform)
| Fails.                         (* reading .x of undefined *)

Definition cardUpdate (bp : list Pos) (progress : Q) (cardIndex : nat)
  : CardOutcome :=
  let ring := ringOrder in
  let ringPos := indexOf ring (Z.of_nat cardIndex) in
  if (ringPos =? -1)%Z then Skip else
  let '(effective, posA, posB, t) := ringGeometry ringPos progress in
  match at_ ring posA, at_ ring posB with
  | Some slotA, Some slotB =>
      match at_ bp slotA, at_ bp slotB, at_ bp (Z.of_nat cardIndex) with
      | Some a, Some b, Some c =>
          let tx := lerp (x a) (x b) t in
          let ty := lerp (y a) (y b) t in
          let dx := tx - x c in
          let dy := ty - y c in
          SetTransform (TTranslate dx dy)
      | _, _, _ => Fails
      end
  | _, _ => Fails
  end.

Definition applyCard (cardIndex : nat) : M unit :=
  s <- get;;
  match cardUpdate (basePositions s) (progress s) cardIndex with
  | Skip => ret tt
  | Fails => throw
  | SetTransform tf => modify (fun s => set_cards (upd (cards s) cardIndex tf) s)
  end.

Definition applyPositions : M unit :=
  s <- get;;
  forEach (seq 0 (length (cards s))) applyCard.

(** ** Animation loop (lines 390-403) *)

Definition animate (timestamp : Q) : M unit :=
  s <- get;;
  (match lastTimestamp s with
   | None => modify (set_lastTimestamp (Some timestamp))
   | Some _ => ret tt
   end);;
  s1 <- get;;
  let last := match lastTimestamp s1 with Some l => l | None => timestamp end in
  let delta := (timestamp - last) / 1000 in
  modify (set_lastTimestamp (Some timestamp));;
  modify (fun s => set_progress (progress s + speed * delta) s);;
  applyPositions;;
  id <- requestAnimationFrame;;
  modify (set_animationId (Some id)).

(** ** Event handlers (lines 409-459) *)

Definition handleMouseEnter (env : Env) : M unit :=
  if (innerWidth env <? minWidth)%Z then ret tt else
  if reducedMotion env then ret tt else
  s <- get;;
  (if positionsCaptured s then ret tt else captureBasePositions env);;
  modify (set_lastTimestamp None);;
  id <- requestAnimationFrame;;
  modify (set_animationId (Some id)).

Definition handleMouseLeave : M unit :=
  s <- get;;
  match animationId s with
  | Some id => cancelAnimationFrame id;; modify (set_animationId None)
  | None => ret tt
  end.
  (* Cards keep their current transforms - freeze in place *)

(** the debounced part of [handleResize]: the [setTimeout] callback *)
Definition resizeWork (env : Env) : M unit :=
  s <- get;;
  if negb (positionsCaptured s) then ret tt else
  let wasAnimating := match animationId s with Some _ => true | None => false end in
  (match animationId s with
   | Some id => cancelAnimationFrame id;; modify (set_animationId None)
   | None => ret tt
   end);;
  if (innerWidth env <? minWidth)%Z then
    (* Reset on mobile *)
    modify (fun s => set_cards (map (fun _ => TEmpty) (cards s)) s);;
    modify (set_positionsCaptured false);;
    modify (set_progress 0)
  else
    captureBasePositions env;;
    applyPositions;;
    (if wasAnimating then
       modify (set_lastTimestamp None);;
       id <- requestAnimationFrame;;
       modify (set_animationId (Some id))
     else ret tt).

(** ** Init (lines 465-477) *)

(** The markup [init] finds: [None] when [.values-grid] is absent,
    otherwise the [.value-card] children (by their inline transform);
    and the reduced-motion preference at that time. *)
Record Dom := mkDom {
  domGrid : option (list Transform);
  domReducedMotion : bool
}.

Inductive Listener := LMouseEnter | LMouseLeave | LResize.

Definition init (dom : Dom) : M (list Listener) :=
  modify (set_grid (match domGrid dom with Some _ => true | None => false end));;
  match domGrid dom with
  | None => ret []
  | Some cs =>
      modify (set_cards cs);;
      if negb (Nat.eqb (length cs) 6) then ret [] else
      if domReducedMotion dom then ret [] else
      ret [LMouseEnter; LMouseLeave; LResize]
  end.

(** ** The browser around the module *)

(** An exception thrown by an event handler or a frame callback is
    reported and the event loop goes on with the state as it was left. *)
Definition outcome {A} (r : Res A) : State :=
  match r with Ok _ s => s | Throw s => s end.

(** A rendering frame at time [ts] runs every pending callback (each one is
    [animate]) once, after emptying the queue. *)
Fixpoint runCallbacks (ids : list nat) (ts : Q) (s : State) : State :=
  match ids with
  | [] => s
  | _ :: rest => runCallbacks rest ts (outcome (animate ts s))
  end.

Definition runFrame (ts : Q) (s : State) : State :=
  let r := raf s in
  runCallbacks (pending r) ts (set_raf (mkRaf (next_id r) []) s).

(** [Resize env] is the debounced callback of [handleResize] firing. *)
Inductive Event :=
| Enter (env : Env)
| Leave
| Resize (env : Env)
| Frame (ts : Q).

Definition registered (l : Listener) (ls : list Listener) : bool :=
  existsb (fun l' => match l, l' with
                     | LMouseEnter, LMouseEnter | LMouseLeave, LMouseLeave
                     | LResize, LResize => true
                     | _, _ => false end) ls.

Definition dispatch (ls : list Listener) (s : State) (e : Event) : State :=
  match e with
  | Enter env => if registered LMouseEnter ls then outcome (handleMouseEnter env s) else s
  | Leave => if registered LMouseLeave ls then outcome (handleMouseLeave s) else s
  | Resize env => if registered LResize ls then outcome (resizeWork env s) else s
  | Frame ts => runFrame ts s
  end.

Definition runEvents (ls : list Listener) (s : State) (evs : list Event) : State :=
  fold_left (dispatch ls) evs s.

(** The page load: [init] from the module's initial values. *)
Definition boot (dom : Dom) : list Listener * State :=
  match init dom initialState with
  | Ok ls s => (ls, s)
  | Throw s => ([], s)
  end.

(** The browser delivers [mouseenter] and [mouseleave] of one element
    alternately, starting with the pointer outside. *)
Fixpoint alternating (hovering : bool) (evs : list Event) : bool :=
  match evs with
  | [] => true
  | Enter _ :: t => negb hovering && alternating true t
  | Leave :: t => hovering && alternating false t
  | _ :: t => alternating hovering t
  end.

(** at most the frame callback held in [animationId] is pending *)
Definition pendingOk (s : State) : Prop :=
  pending (raf s) = [] \/
  exists id, pending (raf s) = [id] /\ animationId s = Some id.

(** ** The ring as a closed path (for comparison with [applyPositions])

    [ringPoint bp u] is the point at ring coordinate [u]: on
    [[k, k+1)] it is the linear interpolation between the base positions
    of the ring slots [k mod 6] and [k+1 mod 6]. *)
Definition segment (bp : list Pos) (k : Z) (t : Q) : option Pos :=
  match at_ ringOrder (k mod 6), at_ ringOrder ((k + 1) mod 6) with
  | Some a, Some b =>
      match at_ bp a, at_ bp b with
      | Some pa, Some pb => Some (mkPos (lerp (x pa) (x pb) t) (lerp (y pa) (y pb) t))
      | _, _ => None
      end
  | _, _ => None
  end%Z.

Definition ringPoint (bp : list Pos) (u : Q) : option Pos :=
  segment bp (Qfloor u) (u - inject_Z (Qfloor u)).

Definition posEq (a b : option Pos) : Prop :=
  match a, b with
  | Some p, Some q => x p == x q /\ y p == y q
  | None, None => True
  | _, _ => False
  end.

(** the base position of the ring slot [k mod 6] *)
Definition ringSlot (bp : list Pos) (k : Z) : option Pos :=
  match at_ ringOrder (k mod 6)%Z with
  | Some a => at_ bp a
  | None => None
  end.

(** ** Proof support *)

(** [applyPositions] as a pure function of the base positions, the
    progress and the cards: whether it finishes, and the transforms. *)
Fixpoint applyPure (bp : list Pos) (p : Q) (l : list nat) (cs : list Transform)
  : bool * list Transform :=
  match l with
  | [] => (true, cs)
  | i :: t =>
      match cardUpdate bp p i with
      | Skip => applyPure bp p t cs
      | Fails => (false, cs)
      | SetTransform tf => applyPure bp p t (upd cs i tf)
      end
  end.

(** the invariant of the frame queue along browser event sequences *)
Definition frameInv (hovering : bool) (s : State) : Prop :=
  pendingOk s /\ (hovering = false -> animationId s = None).

Fixpoint hoverAfter (hovering : bool) (evs : list Event) : bool :=
  match evs with
  | [] => hovering
  | Enter _ :: t => hoverAfter true t
  | Leave :: t => hoverAfter false t
  | _ :: t => hoverAfter hovering t
  end.

(** events that pass while the carousel is frozen: frames, [mouseleave],
    and a [mouseenter] that the width or reduced-motion guard turns away *)
Definition frozenEvent (e : Event) : bool :=
  match e with
  | Frame _ | Leave => true
  | Enter env => (innerWidth env <? minWidth)%Z || reducedMotion env
  | Resize _ => false
  end.

(** [x !== null] *)
Definition isSome {A} (o : option A) : bool :=
  match o with Some _ => true | None => false end.

(** the state after [cancelAnimationFrame(animationId); animationId = null]
    (when [animationId] is set) *)
Definition stopLoop (s : State) : State :=
  match animationId s with
  | Some id =>
      set_animationId None
        (set_raf (mkRaf (next_id (raf s))
                        (filter (fun j => negb (Nat.eqb j id)) (pending (raf s)))) s)
  | None => s
  end.

(** the state after [lastTimestamp = null; animationId = requestAnimationFrame(animate)] *)
Definition restartLoop (s : State) : State :=
  let r := raf s in
  set_animationId (Some (next_id r))
    (set_raf (mkRaf (S (next_id r)) (pending r ++ [next_id r])) (set_lastTimestamp None s)).

#[local] Arguments stopLoop : simpl never.
#[local] Arguments restartLoop : simpl never.

(** ** Concrete inputs *)

Definition sixCards : list Transform := repeat TEmpty 6.

Definition hexDom : Dom := mkDom (Some sixCards) false.

(** a 1024px wide window; cards laid out on a 2 x 3 grid of 100px cells *)
Definition wideEnv : Env :=
  mkEnv 1024 false (mkPos 0 0)
    (fun i => mkPos (inject_Z (Z.of_nat (i mod 2) * 100)) (inject_Z (Z.of_nat (i / 2) * 100))).

Definition narrowEnv : Env :=
  mkEnv 500 false (mkPos 0 0) (fun _ => mkPos 0 0).

Definition hexBase : list Pos :=
  [mkPos 0 0; mkPos 100 0; mkPos 0 100; mkPos 100 100; mkPos 0 200; mkPos 100 200].

(** ** Debounced resize (lines 431-461)

    [handleResize] clears the timer held in [resizeTimer] and arms a new
    150 ms timer whose callback is [resizeWork].  The browser's timer list
    holds (id, due time) pairs; ids are handed out in order. *)
Record Timers := mkTimers { timer_next : nat; timer_queue : list (nat * Q) }.

Record RWorld := mkRWorld {
  rwState : State;
  rwTimers : Timers;
  resizeTimer : option nat       (* let resizeTimer = null *)
}.

(** [clearTimeout(id)]: removes the timer if it is still pending;
    [clearTimeout(null)] does nothing *)
Definition clearTimeout (id : option nat) (t : Timers) : Timers :=
  match id with
  | Some i => mkTimers (timer_next t)
                (filter (fun p => negb (Nat.eqb (fst p) i)) (timer_queue t))
  | None => t
  end.

(** [setTimeout(f, delay)] at time [now] *)
Definition setTimeout (now delay : Q) (t : Timers) : nat * Timers :=
  (timer_next t, mkTimers (S (timer_next t)) (timer_queue t ++ [(timer_next t, now + delay)])).

Definition handleResize (now : Q) (w : RWorld) : RWorld :=
  let t := clearTimeout (resizeTimer w) (rwTimers w) in
  let (id, t') := setTimeout now 150 t in
  mkRWorld (rwState w) t' (Some id).

(** Time reaches [now]: every timer due by then fires, in the order it was
    armed; each one is the [resizeWork] callback, run in the window [env]
    (an exception in it is reported and the loop goes on). *)
Definition advanceTime (env : Env) (now : Q) (w : RWorld) : RWorld :=
  let q := timer_queue (rwTimers w) in
  let due := filter (fun p => Qle_bool (snd p) now) q in
  let later := filter (fun p => negb (Qle_bool (snd p) now)) q in
  mkRWorld (fold_left (fun s _ => outcome (resizeWork env s)) due (rwState w))
    (mkTimers (timer_next (rwTimers w)) later) (resizeTimer w).

Inductive TimeEvent :=
| ResizeAt (now : Q)                (* a window 'resize' event *)
| AdvanceTo (env : Env) (now : Q).

Definition timeStep (w : RWorld) (e : TimeEvent) : RWorld :=
  match e with
  | ResizeAt now => handleResize now w
  | AdvanceTo env now => advanceTime env now w
  end.

Definition runTime (w : RWorld) (evs : list TimeEvent) : RWorld :=
  fold_left timeStep evs w.

(** at most one resize timer pending: the one held in [resizeTimer] *)
Definition timersOk (w : RWorld) : Prop :=
  timer_queue (rwTimers w) = [] \/
  exists id due, timer_queue (rwTimers w) = [(id, due)] /\ resizeTimer w = Some id.

(** * Portfolio (src/js/main.js, lines 8-225)

    Strings are JS strings: lists of UTF-16 code units. *)
Module Portfolio.

Definition jsstr := list Z.

(** an ASCII literal as a JS string *)
Fixpoint js (s : String.string) : jsstr :=
  match s with
  | String.EmptyString => []
  | String.String a t => Z.of_nat (Ascii.nat_of_ascii a) :: js t
  end.

Fixpoint jseqb (a b : jsstr) : bool :=
  match a, b with
  | [], [] => true
  | c :: a', d :: b' => Z.eqb c d && jseqb a' b'
  | _, _ => false
  end.

(** WhiteSpace and LineTerminator code units, which [trim] removes *)
Definition isWhiteSpace (c : Z) : bool :=
  existsb (Z.eqb c) [9; 10; 11; 12; 13; 32; 160; 5760; 8232; 8233; 8239; 8287; 12288; 65279]%Z
  || ((8192 <=? c) && (c <=? 8202))%Z.

Fixpoint dropWhile (p : Z -> bool) (s : jsstr) : jsstr :=
  match s with
  | [] => []
  | c :: t => if p c then dropWhile p t else s
  end.

Definition trimStart (s : jsstr) : jsstr := dropWhile isWhiteSpace s.

(** [String.prototype.trim] *)
Definition trim (s : jsstr) : jsstr := rev (trimStart (rev (trimStart s))).

(** [s.startsWith(pre)] *)
Fixpoint startsWith (s pre : jsstr) : bool :=
  match pre, s with
  | [], _ => true
  | c :: p, d :: t => Z.eqb c d && startsWith t p
  | _ :: _, [] => false
  end.

(** [s.includes(pat)] *)
Fixpoint includes (s pat : jsstr) : bool :=
  startsWith s pat || match s with [] => false | _ :: t => includes t pat end.

(** [s.slice(1)] *)
Definition slice1 (s : jsstr) : jsstr := skipn 1 s.

(** *** [initExternalLinks] (lines 99-110), on one [a[target="_blank"]]
    link given by its [rel] attribute ([None]: absent) *)
Definition secureLink (relAttr : option jsstr) : option jsstr :=
  (* const rel = link.getAttribute('rel') || '' *)
  let rel := match relAttr with Some r => r | None => [] end in
  if negb (includes rel (js "noopener")) then
    Some (trim (rel ++ js " noopener noreferrer"))
  else relAttr.

(** *** The smooth-scroll click handler (lines 37-55) *)

(** an element, by what the handler reads of it *)
Record Elem := mkElem {
  localName : String.string;
  hrefAttr : option jsstr;
  idAttr : option jsstr
}.

(** the selector [a[href^="#"]] *)
Definition matchesAnchor (e : Elem) : bool :=
  String.eqb (localName e) "a" &&
  match hrefAttr e with Some h => startsWith h (js "#") | None => false end.

(** [el.closest(sel)] on the click target, given with its ancestors,
    nearest first *)
Definition closest (sel : Elem -> bool) (chain : list Elem) : option Elem :=
  find sel chain.

(** an element's ID: its [id] attribute, unless that is empty *)
Definition elemID (e : Elem) : option jsstr :=
  match idAttr e with Some (_ :: _) as i => i | _ => None end.

(** [document.getElementById(id)]: the first element in tree order whose
    ID is [id] *)
Definition getElementById (doc : list Elem) (id : jsstr) : option Elem :=
  find (fun e => match elemID e with Some i => jseqb i id | None => false end) doc.

Inductive ClickEffect :=
| PreventDefault
| ScrollIntoView (e : Elem)
| PushState (url : jsstr).

Definition smoothScrollClick (doc chain : list Elem) : list ClickEffect :=
  match closest matchesAnchor chain with
  | None => []
  | Some anchor =>
      match hrefAttr anchor with
      | None => []                  (* not reached: the selector needs href *)
      | Some href =>
          let targetId := slice1 href in
          match getElementById doc targetId with
          | Some t => [PreventDefault; ScrollIntoView t; PushState (js "#" ++ targetId)]
          | None => []
          end
      end
  end.

(** *** The IntersectionObserver callback (lines 73-81)

    Each element's [classList] is its ordered set of tokens; elements are
    numbered. *)
Record Entry := mkEntry { entryTarget : nat; isIntersecting : bool }.

(** [classList.add(token)] *)
Definition classListAdd (token : jsstr) (cl : list jsstr) : list jsstr :=
  if existsb (jseqb token) cl then cl else cl ++ [token].

(** the body of [entries.forEach] *)
Definition observeEntry (cls : list (list jsstr)) (entry : Entry) : list (list jsstr) :=
  if isIntersecting entry then
    match nth_error cls (entryTarget entry) with
    | Some cl => upd cls (entryTarget entry) (classListAdd (js "is-visible") cl)
    | None => cls
    end
  else cls.

Definition observerCallback (entries : list Entry) (classes : list (list jsstr))
  : list (list jsstr) :=
  fold_left observeEntry entries classes.

(** the callback run on successive batches of entries *)
Definition runObserver (batches : list (list Entry)) (classes : list (list jsstr))
  : list (list jsstr) :=
  fold_left (fun cls b => observerCallback b cls) batches classes.

(** *** [init] and the init* functions (lines 27-211) *)

(** what the page offers when [init] runs *)
Record PEnv := mkPEnv {
  peReducedMotion : bool;        (* (prefers-reduced-motion: reduce) *)
  peAnimated : list nat;         (* the .animate-on-scroll elements *)
  peSkipLink : bool;             (* a .skip-link exists *)
  peYear : Z                     (* new Date().getFullYear() *)
}.

Inductive PListener :=
| DocumentClick                  (* the smooth-scroll handler *)
| SkipLinkClick
| DocumentLanguageChanged.

Inductive TextContent :=
| Text (s : jsstr)
| YearNumber (y : Z).            (* textContent = currentYear *)

Inductive ConsoleLine :=
| LogTagged (msg : String.string)   (* console.log('[Portfolio]', msg) *)
| LogPlain (msg : String.string)
| Warn (msg : String.string)
| EasterEgg (n : nat).              (* the n-th styled line *)

Record Page := mkPage {
  isInitialized : bool;
  debug : bool;                     (* CONFIG.debug *)
  listeners : list PListener;
  observed : list nat;              (* elements observed for animation *)
  relAttrs : list (option jsstr);   (* rel of each a[target="_blank"] *)
  yearTexts : list TextContent;     (* each [data-current-year] element *)
  console : list ConsoleLine
}.

Definition set_console (c : list ConsoleLine) (p : Page) : Page :=
  mkPage (isInitialized p) (debug p) (listeners p) (observed p) (relAttrs p) (yearTexts p) c.
Definition set_listeners (l : list PListener) (p : Page) : Page :=
  mkPage (isInitialized p) (debug p) l (observed p) (relAttrs p) (yearTexts p) (console p).
Definition set_observed (o : list nat) (p : Page) : Page :=
  mkPage (isInitialized p) (debug p) (listeners p) o (relAttrs p) (yearTexts p) (console p).
Definition set_relAttrs (r : list (option jsstr)) (p : Page) : Page :=
  mkPage (isInitialized p) (debug p) (listeners p) (observed p) r (yearTexts p) (console p).
Definition set_yearTexts (y : list TextContent) (p : Page) : Page :=
  mkPage (isInitialized p) (debug p) (listeners p) (observed p) (relAttrs p) y (console p).
Definition set_isInitialized (b : bool) (p : Page) : Page :=
  mkPage b (debug p) (listeners p) (observed p) (relAttrs p) (yearTexts p) (console p).
Definition set_debug (b : bool) (p : Page) : Page :=
  mkPage (isInitialized p) b (listeners p) (observed p) (relAttrs p) (yearTexts p) (console p).

Definition addEventListener (l : PListener) (p : Page) : Page :=
  set_listeners (listeners p ++ [l]) p.

Definition log (msg : String.string) (p : Page) : Page :=
  if debug p then set_console (console p ++ [LogTagged msg]) p else p.

Definition initSmoothScroll (p : Page) : Page :=
  log "Smooth scroll initialized" (addEventListener DocumentClick p).

Definition initScrollAnimations (env : PEnv) (p : Page) : Page :=
  if peReducedMotion env then
    log "Reduced motion preferred, skipping scroll animations" p
  else
    log "Scroll animations initialized" (set_observed (observed p ++ peAnimated env) p).

Definition initExternalLinks (p : Page) : Page :=
  log "External links secured" (set_relAttrs (map secureLink (relAttrs p)) p).

Definition initKeyboardNav (env : PEnv) (p : Page) : Page :=
  log "Keyboard navigation initialized"
    (if peSkipLink env then addEventListener SkipLinkClick p else p).

Definition initDynamicYear (env : PEnv) (p : Page) : Page :=
  log "Dynamic year updated"
    (set_yearTexts (map (fun _ => YearNumber (peYear env)) (yearTexts p)) p).

Definition initLanguageListener (p : Page) : Page :=
  log "Language listener initialized" (addEventListener DocumentLanguageChanged p).

Definition initConsoleEasterEgg (p : Page) : Page :=
  set_console (console p ++ [EasterEgg 1; EasterEgg 2; EasterEgg 3; EasterEgg 4]) p.

Definition init (env : PEnv) (p : Page) : Page :=
  if isInitialized p then
    set_console (console p ++ [Warn "[Portfolio] Already initialized"]) p
  else
    let p := initSmoothScroll p in
    let p := initScrollAnimations env p in
    let p := initExternalLinks p in
    let p := initKeyboardNav env p in
    let p := initDynamicYear env p in
    let p := initLanguageListener p in
    let p := initConsoleEasterEgg p in
    let p := set_isInitialized true p in
    log "Portfolio fully initialized" p.

Definition enableDebug (p : Page) : Page :=
  set_console (console p ++ [LogPlain "[Portfolio] Debug mode enabled"]) (set_debug true p).

End Portfolio.

(** * Lemmas *)

Lemma inject_Z_minus (a b : Z) : inject_Z (a - b) = inject_Z a - inject_Z b.
Proof. unfold Z.sub. rewrite inject_Z_plus, inject_Z_opp. reflexivity. Qed.

Lemma Qfloor_unique (q : Q) (z : Z) :
  inject_Z z <= q -> q < inject_Z (z + 1) -> Qfloor q = z.
Proof.
  intros H1 H2.
  pose proof (Qfloor_le q) as F1. pose proof (Qlt_floor q) as F2.
  assert (A : (Qfloor q < z + 1)%Z).
  { rewrite Zlt_Qlt. apply (Qle_lt_trans _ q); assumption. }
  assert (B : (z < Qfloor q + 1)%Z).
  { rewrite Zlt_Qlt. apply (Qle_lt_trans _ q); assumption. }
  lia.
Qed.
(** [%] by the ring length on a nonnegative number *)
Lemma jsmod_nonneg (u : Q) (len : Z) : 0 <= u -> (0 < len)%Z ->
  let m := Qfloor (u / inject_Z len) in
  jsmod u (inject_Z len) == u - inject_Z len * inject_Z m /\
  inject_Z len * inject_Z m <= u < inject_Z len * inject_Z (m + 1).
Proof.
  intros Hu Hl m.
  assert (L : 0 < inject_Z len) by (change (inject_Z 0 < inject_Z len); rewrite <- Zlt_Qlt; exact Hl).
  assert (Hd : 0 <= u / inject_Z len).
  { apply Qle_shift_div_l; [exact L | rewrite Qmult_0_l; exact Hu]. }
  unfold jsmod, Qtrunc.
  apply Qle_bool_iff in Hd. rewrite Hd. fold m.
  split; [reflexivity |].
  pose proof (Qfloor_le (u / inject_Z len)) as F1.
  pose proof (Qlt_floor (u / inject_Z len)) as F2. fold m in F1, F2.
  assert (Hne : ~ inject_Z len == 0) by (intro E; rewrite E in L; discriminate).
  split.
  - apply (Qmult_le_compat_r _ _ (inject_Z len)) in F1; [| apply Qlt_le_weak; exact L].
    setoid_replace (u / inject_Z len * inject_Z len) with u in F1 by (field; exact Hne).
    rewrite Qmult_comm. exact F1.
  - apply (Qmult_lt_compat_r _ _ (inject_Z len)) in F2; [| exact L].
    setoid_replace (u / inject_Z len * inject_Z len) with u in F2 by (field; exact Hne).
    rewrite Qmult_comm. exact F2.
Qed.

Lemma ringGeometry_spec (rp : Z) (p : Q) : (0 <= rp)%Z -> 0 <= p ->
  let u := inject_Z rp + p in
  match ringGeometry rp p with
  | (e, posA, posB, t) =>
      posA = (Qfloor u mod 6)%Z /\ (0 <= posA < 6)%Z /\
      posB = ((posA + 1) mod 6)%Z /\
      t == u - inject_Z (Qfloor u) /\ 0 <= t /\ t < 1
  end.
Proof.
  intros Hr Hp u.
  assert (Hu : 0 <= u).
  { unfold u. apply (Qle_trans _ (0 + 0)); [discriminate |].
    apply Qplus_le_compat; [| exact Hp].
    change (inject_Z 0 <= inject_Z rp). rewrite <- Zle_Qle. exact Hr. }
  unfold ringGeometry. change (Z.of_nat (length ringOrder)) with 6%Z. fold u.
  destruct (jsmod_nonneg u 6 Hu ltac:(lia)) as [He [Lo Hi]].
  set (m := Qfloor (u / inject_Z 6)) in *.
  set (e := jsmod u (inject_Z 6)) in *.
  pose proof (Qfloor_le u) as F1. pose proof (Qlt_floor u) as F2.
  assert (Fe : Qfloor e = (Qfloor u - 6 * m)%Z).
  { rewrite He. apply Qfloor_unique.
    - rewrite <- inject_Z_mult.
      rewrite inject_Z_minus, inject_Z_mult.
      apply Qplus_le_compat; [exact F1 | apply Qle_refl].
    - rewrite inject_Z_plus, inject_Z_minus, inject_Z_mult.
      setoid_replace (inject_Z (Qfloor u) - inject_Z 6 * inject_Z m + inject_Z 1)
        with (inject_Z (Qfloor u) + inject_Z 1 - inject_Z 6 * inject_Z m) by ring.
      apply Qplus_lt_le_compat; [rewrite <- inject_Z_plus; exact F2 | apply Qle_refl]. }
  assert (B1 : (6 * m <= Qfloor u)%Z).
  { rewrite <- (Qfloor_Z (6 * m)). apply Qfloor_resp_le.
    rewrite inject_Z_mult. exact Lo. }
  assert (B2 : (Qfloor u < 6 * (m + 1))%Z).
  { rewrite Zlt_Qlt. rewrite inject_Z_mult. apply (Qle_lt_trans _ u); assumption. }
  rewrite Fe. unfold zmod.
  assert (R : Z.rem (Qfloor u - 6 * m) 6 = (Qfloor u - 6 * m)%Z)
    by (apply Z.rem_small; lia).
  rewrite R.
  assert (Mo : (Qfloor u mod 6 = Qfloor u - 6 * m)%Z).
  { symmetry. apply (Z.mod_unique _ _ m). left; lia. ring. }
  assert (T : e - inject_Z (Qfloor u - 6 * m) == u - inject_Z (Qfloor u)).
  { rewrite He, inject_Z_minus, inject_Z_mult. ring. }
  split; [exact (eq_sym Mo) |]. split; [lia |]. split.
  - rewrite Z.rem_mod_nonneg by lia. reflexivity.
  - split; [exact T |]. rewrite T. split.
    + apply (Qplus_le_l _ _ (inject_Z (Qfloor u))). ring_simplify. exact F1.
    + apply (Qplus_lt_l _ _ (inject_Z (Qfloor u))). 
      rewrite inject_Z_plus in F2.
      setoid_replace (u - inject_Z (Qfloor u) + inject_Z (Qfloor u)) with u by ring.
      setoid_replace (1 + inject_Z (Qfloor u)) with (inject_Z (Qfloor u) + inject_Z 1) by ring.
      exact F2.
Qed.

Lemma indexOf_cards (i : nat) : (i < 6)%nat ->
  (0 <= indexOf ringOrder (Z.of_nat i) < 6)%Z.
Proof.
  intros H. do 6 (destruct i as [|i]; [simpl; lia |]). lia.
Qed.

Lemma ringOrder_at (k : Z) : (0 <= k < 6)%Z ->
  exists v, at_ ringOrder k = Some v /\ (0 <= v < 6)%Z.
Proof.
  intros H.
  assert (E : k = 0%Z \/ k = 1%Z \/ k = 2%Z \/ k = 3%Z \/ k = 4%Z \/ k = 5%Z) by lia.
  repeat destruct E as [E | E]; subst; eexists; split; try reflexivity; lia.
Qed.

Lemma at_in_range {A} (l : list A) (k : Z) :
  (0 <= k < Z.of_nat (length l))%Z -> exists a, at_ l k = Some a.
Proof.
  intros H. unfold at_.
  replace (0 <=? k)%Z with true by (symmetry; apply Z.leb_le; lia).
  destruct (nth_error l (Z.to_nat k)) eqn:E; [eauto |].
  apply nth_error_None in E. lia.
Qed.

Lemma at_of_nat {A} (l : list A) (i : nat) : at_ l (Z.of_nat i) = nth_error l i.
Proof.
  unfold at_. replace (0 <=? Z.of_nat i)%Z with true by (symmetry; apply Z.leb_le; lia).
  rewrite Nat2Z.id. reflexivity.
Qed.

Lemma ringSlot_some (bp : list Pos) (k : Z) : length bp = 6%nat ->
  exists p, ringSlot bp k = Some p.
Proof.
  intros Hl. unfold ringSlot.
  destruct (ringOrder_at (k mod 6)) as [v [Ev Hv]]; [apply Z.mod_pos_bound; lia |].
  rewrite Ev. apply at_in_range. rewrite Hl. simpl. lia.
Qed.

Lemma segment_slots (bp : list Pos) (k : Z) (t : Q) :
  segment bp k t =
  match ringSlot bp k, ringSlot bp (k + 1) with
  | Some pa, Some pb => Some (mkPos (lerp (x pa) (x pb) t) (lerp (y pa) (y pb) t))
  | _, _ => None
  end.
Proof.
  unfold segment, ringSlot.
  destruct (at_ ringOrder (k mod 6)); destruct (at_ ringOrder ((k + 1) mod 6)); try reflexivity.
  destruct (at_ bp z); reflexivity.
Qed.

(** The per-card computation of [applyPositions], once the geometry is
    known, in terms of the ring slots. *)
Lemma cardUpdate_geometry (bp : list Pos) (p : Q) (i : nat) :
  length bp = 6%nat -> 0 <= p -> (i < 6)%nat ->
  exists bi pa pb,
    at_ bp (Z.of_nat i) = Some bi /\
    ringSlot bp (Qfloor (inject_Z (indexOf ringOrder (Z.of_nat i)) + p)) = Some pa /\
    ringSlot bp (Qfloor (inject_Z (indexOf ringOrder (Z.of_nat i)) + p) + 1) = Some pb /\
    match ringGeometry (indexOf ringOrder (Z.of_nat i)) p with
    | (_, _, _, t) =>
        t == inject_Z (indexOf ringOrder (Z.of_nat i)) + p
             - inject_Z (Qfloor (inject_Z (indexOf ringOrder (Z.of_nat i)) + p)) /\
        cardUpdate bp p i =
          SetTransform (TTranslate (lerp (x pa) (x pb) t - x bi) (lerp (y pa) (y pb) t - y bi))
    end.
Proof.
  intros Hl Hp Hi.
  pose proof (indexOf_cards i Hi) as Hr.
  set (rp := indexOf ringOrder (Z.of_nat i)) in *.
  set (u := inject_Z rp + p).
  destruct (at_in_range bp (Z.of_nat i)) as [bi Ebi]; [rewrite Hl; lia |].
  destruct (ringSlot_some bp (Qfloor u) Hl) as [pa Ea].
  destruct (ringSlot_some bp (Qfloor u + 1) Hl) as [pb Eb].
  exists bi, pa, pb. split; [exact Ebi |]. split; [exact Ea |]. split; [exact Eb |].
  pose proof (ringGeometry_spec rp p ltac:(lia) Hp) as G. fold u in G.
  unfold cardUpdate. fold rp.
  replace (rp =? -1)%Z with false by (symmetry; apply Z.eqb_neq; lia).
  destruct (ringGeometry rp p) as [[[e posA] posB] t].
  destruct G as [HA [HA6 [HB [Ht _]]]].
  split; [exact Ht |].
  assert (HB' : posB = ((Qfloor u + 1) mod 6)%Z)
    by (rewrite HB, HA, Z.add_mod_idemp_l; [reflexivity | lia]).
  unfold ringSlot in Ea, Eb. rewrite <- HA in Ea. rewrite <- HB' in Eb.
  destruct (at_ ringOrder posA) as [sa |]; [| discriminate].
  destruct (at_ ringOrder posB) as [sb |]; [| discriminate].
  rewrite Ea, Eb, Ebi. reflexivity.
Qed.

Lemma cardUpdate_sets (bp : list Pos) (p : Q) (i : nat) :
  length bp = 6%nat -> 0 <= p -> (i < 6)%nat ->
  exists dx dy, cardUpdate bp p i = SetTransform (TTranslate dx dy).
Proof.
  intros Hl Hp Hi.
  destruct (cardUpdate_geometry bp p i Hl Hp Hi) as [bi [pa [pb [_ [_ [_ G]]]]]].
  destruct (ringGeometry _ p) as [[[e posA] posB] t].
  destruct G as [_ G]. eauto.
Qed.

Lemma capture_eq (env : Env) (s : State) :
  captureBasePositions env s =
    Ok tt (set_positionsCaptured true
             (set_basePositions (measure env (map (fun _ => TEmpty) (cards s))) s)).
Proof. destruct s; reflexivity. Qed.

Lemma resizeWork_eq (env : Env) (s : State) :
  resizeWork env s =
  if negb (positionsCaptured s) then Ok tt s else
  let s0 := stopLoop s in
  if (innerWidth env <? minWidth)%Z then
    Ok tt (set_progress 0 (set_positionsCaptured false
             (set_cards (map (fun _ => TEmpty) (cards s0)) s0)))
  else
    match applyPositions
            (set_positionsCaptured true
               (set_basePositions (measure env (map (fun _ => TEmpty) (cards s0))) s0)) with
    | Ok _ s2 => Ok tt (if isSome (animationId s) then restartLoop s2 else s2)
    | Throw s2 => Throw s2
    end.
Proof.
  unfold resizeWork, stopLoop.
  destruct s as [g cs bp pr ai lt [|] [nx pd]]; [| reflexivity].
  unfold bind at 1, get. cbn [negb positionsCaptured animationId].
  destruct ai as [id |];
  unfold bind at 1; cbn -[captureBasePositions applyPositions];
  (destruct (innerWidth env <? minWidth)%Z; [reflexivity |]);
  unfold bind at 1; rewrite capture_eq; cbn -[applyPositions measure];
  unfold bind at 1; destruct (applyPositions _); reflexivity.
Qed.

Lemma set_cards_same (s : State) : set_cards (cards s) s = s.
Proof. destruct s; reflexivity. Qed.

Lemma forEach_applyCard (l : list nat) (s : State) :
  forEach l applyCard s =
  match applyPure (basePositions s) (progress s) l (cards s) with
  | (true, cs) => Ok tt (set_cards cs s)
  | (false, cs) => Throw (set_cards cs s)
  end.
Proof.
  revert s. induction l as [| i t IH]; intros s.
  - simpl. rewrite set_cards_same. reflexivity.
  - simpl. unfold bind at 1, applyCard, bind, get.
    destruct (cardUpdate (basePositions s) (progress s) i) as [| tf |].
    + apply IH.
    + unfold modify. rewrite IH. destruct s; reflexivity.
    + unfold throw. rewrite set_cards_same. reflexivity.
Qed.

Lemma applyPositions_pure (s : State) :
  applyPositions s =
  match applyPure (basePositions s) (progress s) (seq 0 (length (cards s))) (cards s) with
  | (true, cs) => Ok tt (set_cards cs s)
  | (false, cs) => Throw (set_cards cs s)
  end.
Proof. unfold applyPositions, bind, get. apply forEach_applyCard. Qed.

Lemma upd_length {A} (l : list A) (i : nat) (v : A) : length (upd l i v) = length l.
Proof.
  revert i. induction l as [| h t IH]; intros [| j]; simpl; try rewrite IH; reflexivity.
Qed.

Lemma upd_nth_other {A} (l : list A) (i j : nat) (v : A) :
  i <> j -> nth_error (upd l i v) j = nth_error l j.
Proof.
  revert i j. induction l as [| h t IH]; intros [| i] [| j] H; simpl; try reflexivity.
  - congruence.
  - apply IH. congruence.
Qed.

Lemma upd_nth_same {A} (l : list A) (i : nat) (v : A) :
  (i < length l)%nat -> nth_error (upd l i v) i = Some v.
Proof.
  revert i. induction l as [| h t IH]; intros [| i] H; simpl in *; try lia; auto.
  apply IH. lia.
Qed.

Lemma upd_noop {A} (l : list A) (i : nat) (v : A) :
  (nth_error l i = Some v \/ (length l <= i)%nat) -> upd l i v = l.
Proof.
  revert i. induction l as [| h t IH]; intros [| i] H; simpl in *; try reflexivity.
  - destruct H as [H | H]; [congruence | lia].
  - f_equal. apply IH. destruct H; [left | right]; auto; lia.
Qed.

Lemma applyPure_length bp p l cs : length (snd (applyPure bp p l cs)) = length cs.
Proof.
  revert cs. induction l as [| i t IH]; intros cs; simpl; [reflexivity |].
  destruct (cardUpdate bp p i); simpl; try rewrite IH; try rewrite upd_length; reflexivity.
Qed.

Lemma applyPure_other bp p l cs j :
  ~ In j l -> nth_error (snd (applyPure bp p l cs)) j = nth_error cs j.
Proof.
  revert cs. induction l as [| i t IH]; intros cs Hj; simpl; [reflexivity |].
  destruct (cardUpdate bp p i); simpl; try reflexivity.
  - apply IH. intro; apply Hj; right; assumption.
  - rewrite IH by (intro; apply Hj; right; assumption).
    apply upd_nth_other. intro; apply Hj; left; assumption.
Qed.

(** Running the update twice is running it once. *)
Lemma applyPure_idem bp p l cs : NoDup l ->
  applyPure bp p l (snd (applyPure bp p l cs)) = applyPure bp p l cs.
Proof.
  revert cs. induction l as [| i t IH]; intros cs Hnd; simpl; [reflexivity |].
  inversion Hnd as [| ? ? Hnin Hnd']; subst.
  destruct (cardUpdate bp p i) as [| tf |] eqn:Ec; simpl.
  - apply IH. exact Hnd'.
  - rewrite (upd_noop _ i tf). { apply IH. exact Hnd'. }
    destruct (Nat.lt_ge_cases i (length cs)) as [Hlt | Hge].
    + left. rewrite applyPure_other by exact Hnin. apply upd_nth_same. exact Hlt.
    + right. rewrite applyPure_length, upd_length. exact Hge.
  - reflexivity.
Qed.

Lemma applyPure_all_set bp p l cs :
  NoDup l -> (forall i, In i l -> exists tf, cardUpdate bp p i = SetTransform tf) ->
  fst (applyPure bp p l cs) = true /\
  forall i tf, In i l -> cardUpdate bp p i = SetTransform tf -> (i < length cs)%nat ->
    nth_error (snd (applyPure bp p l cs)) i = Some tf.
Proof.
  revert cs. induction l as [| i t IH]; intros cs Hnd Hall.
  - split; [reflexivity | intros ? ? []].
  - inversion Hnd as [| ? ? Hnin Hnd']; subst.
    destruct (Hall i (or_introl eq_refl)) as [tfi Ei].
    simpl. rewrite Ei.
    destruct (IH (upd cs i tfi) Hnd' (fun j Hj => Hall j (or_intror Hj))) as [IH1 IH2].
    split; [exact IH1 |].
    intros j tf [<- | Hj] Ej Hlt.
    + rewrite applyPure_other by exact Hnin. rewrite Ei in Ej. injection Ej as <-.
      apply upd_nth_same. exact Hlt.
    + apply IH2; [exact Hj | exact Ej | rewrite upd_length; exact Hlt].
Qed.

Lemma lerp_compat (a b t t' : Q) : t == t' -> lerp a b t == lerp a b t'.
Proof. intros H. unfold lerp. rewrite H. reflexivity. Qed.

Lemma posEq_refl (a : option Pos) : posEq a a.
Proof. destruct a; simpl; [split; reflexivity | exact I]. Qed.

Lemma measure_cleared (env : Env) (cs : list Transform) :
  measure env (map (fun _ => TEmpty) cs) =
  map (fun i => mkPos (x (naturalRect env i) - x (gridRect env))
                      (y (naturalRect env i) - y (gridRect env)))
      (seq 0 (length cs)).
Proof.
  unfold measure. rewrite length_map. generalize 0%nat as k.
  induction cs as [| c t IH]; intros k; simpl; [reflexivity |].
  f_equal. apply IH.
Qed.

Lemma stop_cards s : cards (stopLoop s) = cards s.
Proof. unfold stopLoop; destruct (animationId s); reflexivity. Qed.
Lemma stop_progress s : progress (stopLoop s) = progress s.
Proof. unfold stopLoop; destruct (animationId s); reflexivity. Qed.
Lemma stop_lastTimestamp s : lastTimestamp (stopLoop s) = lastTimestamp s.
Proof. unfold stopLoop; destruct (animationId s); reflexivity. Qed.
Lemma stop_basePositions s : basePositions (stopLoop s) = basePositions s.
Proof. unfold stopLoop; destruct (animationId s); reflexivity. Qed.
Lemma stop_positionsCaptured s : positionsCaptured (stopLoop s) = positionsCaptured s.
Proof. unfold stopLoop; destruct (animationId s); reflexivity. Qed.
Lemma stop_animationId s : animationId (stopLoop s) = None.
Proof. unfold stopLoop; destruct (animationId s) eqn:E; [reflexivity | exact E]. Qed.
Lemma restart_cards s : cards (restartLoop s) = cards s.
Proof. reflexivity. Qed.
Lemma restart_progress s : progress (restartLoop s) = progress s.
Proof. reflexivity. Qed.
Lemma restart_lastTimestamp s : lastTimestamp (restartLoop s) = None.
Proof. reflexivity. Qed.
Lemma restart_basePositions s : basePositions (restartLoop s) = basePositions s.
Proof. reflexivity. Qed.
Lemma restart_positionsCaptured s : positionsCaptured (restartLoop s) = positionsCaptured s.
Proof. reflexivity. Qed.
Lemma restart_animationId s : animationId (restartLoop s) = Some (next_id (raf s)).
Proof. reflexivity. Qed.

Create Rewrite HintDb loop_fields.
#[local] Hint Rewrite stop_cards stop_progress stop_lastTimestamp stop_basePositions
  stop_positionsCaptured stop_animationId restart_cards restart_progress
  restart_lastTimestamp restart_basePositions restart_positionsCaptured
  restart_animationId : loop_fields.

Lemma runEvents_unregistered (s : State) (evs : list Event) :
  pending (raf s) = [] -> runEvents [] s evs = s.
Proof.
  intros Hp. unfold runEvents. induction evs as [| e t IH]; [reflexivity |].
  simpl. replace (dispatch [] s e) with s; [exact IH |].
  destruct e; try reflexivity.
  simpl. unfold runFrame. rewrite Hp. destruct s as [g cs bp pr ai lt pc [nx pd]].
  simpl in *. subst. reflexivity.
Qed.

Lemma applyPositions_cards_only (s : State) :
  exists cs, applyPositions s = Ok tt (set_cards cs s) \/ applyPositions s = Throw (set_cards cs s).
Proof.
  rewrite applyPositions_pure.
  destruct (applyPure _ _ _ _) as [[|] cs]; eauto.
Qed.

Lemma animate_loop (ts : Q) (s : State) :
  (exists s2, animate ts s = Throw s2 /\ raf s2 = raf s /\ animationId s2 = animationId s) \/
  (exists s2, animate ts s = Ok tt s2 /\
     raf s2 = mkRaf (S (next_id (raf s))) (pending (raf s) ++ [next_id (raf s)]) /\
     animationId s2 = Some (next_id (raf s))).
Proof.
  unfold animate, bind, get, modify, ret.
  destruct s as [g cs bp pr ai lt pc [nx pd]]; simpl;
  destruct lt; simpl;
  match goal with |- context [applyPositions ?X] =>
    destruct (applyPositions_cards_only X) as [cs' [E | E]]; rewrite E end;
  [right | left | right | left]; eexists; repeat split.
Qed.

Lemma enter_loop (env : Env) (s : State) :
  ((innerWidth env <? minWidth)%Z || reducedMotion env = true /\ handleMouseEnter env s = Ok tt s) \/
  ((innerWidth env <? minWidth)%Z || reducedMotion env = false /\
   exists s2, handleMouseEnter env s = Ok tt s2 /\
     raf s2 = mkRaf (S (next_id (raf s))) (pending (raf s) ++ [next_id (raf s)]) /\
     animationId s2 = Some (next_id (raf s))).
Proof.
  unfold handleMouseEnter.
  destruct (innerWidth env <? minWidth)%Z; [left; split; reflexivity |].
  destruct (reducedMotion env); [left; split; reflexivity |].
  right. split; [reflexivity |].
  unfold bind, get, modify, ret.
  destruct (positionsCaptured s); [| rewrite capture_eq]; eexists; repeat split.
Qed.

Lemma stop_pending (s : State) : pendingOk s -> pending (raf (stopLoop s)) = [].
Proof.
  unfold stopLoop. intros [Hp | [id [Hp Ha]]].
  - destruct (animationId s); simpl; rewrite Hp; reflexivity.
  - rewrite Ha. simpl. rewrite Hp. simpl. rewrite Nat.eqb_refl. reflexivity.
Qed.

Lemma frameInv_enter (env : Env) (s : State) :
  frameInv false s -> frameInv true (outcome (handleMouseEnter env s)).
Proof.
  intros [[Hp | [id [Hp Ha]]] Hn]; [| rewrite Hn in Ha by reflexivity; discriminate].
  destruct (enter_loop env s) as [[_ E] | [_ [s2 [E [Er Ea]]]]]; rewrite E; simpl.
  - split; [left; exact Hp | discriminate].
  - split; [| discriminate]. right. exists (next_id (raf s)).
    rewrite Er, Ea, Hp. split; reflexivity.
Qed.

Lemma frameInv_leave (s : State) :
  frameInv true s -> frameInv false (outcome (handleMouseLeave s)).
Proof.
  intros [Hok _].
  assert (E : outcome (handleMouseLeave s) = stopLoop s)
    by (unfold handleMouseLeave, stopLoop, bind, get, cancelAnimationFrame, modify, ret;
        destruct (animationId s); reflexivity).
  rewrite E. split; [left; apply stop_pending; exact Hok | intros _; apply stop_animationId].
Qed.

Lemma frameInv_resize (env : Env) (hov : bool) (s : State) :
  frameInv hov s -> frameInv hov (outcome (resizeWork env s)).
Proof.
  intros [Hok Hn]. rewrite resizeWork_eq. cbv zeta.
  destruct (negb (positionsCaptured s)); [split; assumption |].
  pose proof (stop_pending s Hok) as Hs.
  destruct (innerWidth env <? minWidth)%Z.
  - simpl. split; [left; exact Hs | intros _; apply stop_animationId].
  - match goal with |- context [applyPositions ?X] =>
      destruct (applyPositions_cards_only X) as [cs' [E | E]]; rewrite E end; simpl.
    + destruct (isSome (animationId s)) eqn:Ha.
      * split; [| intros ->; rewrite Hn in Ha by reflexivity; discriminate].
        right. eexists. split; [| reflexivity]. simpl. rewrite Hs. reflexivity.
      * split; [left; exact Hs | intros _; apply stop_animationId].
    + split; [left; exact Hs | intros _; apply stop_animationId].
Qed.

Lemma frameInv_frame (ts : Q) (hov : bool) (s : State) :
  frameInv hov s -> frameInv hov (runFrame ts s).
Proof.
  intros [[Hp | [id [Hp Ha]]] Hn]; unfold runFrame; rewrite Hp; simpl.
  - split; [left; reflexivity | exact Hn].
  - set (s0 := set_raf (mkRaf (next_id (raf s)) []) s).
    destruct (animate_loop ts s0) as [[s2 [E [Er Ea]]] | [s2 [E [Er Ea]]]]; rewrite E; simpl.
    + split; [left; rewrite Er; reflexivity |].
      intros H. rewrite Ea. exact (Hn H).
    + split; [right; exists (next_id (raf s0)); rewrite Er, Ea; split; reflexivity |].
      intros H. rewrite Hn in Ha by exact H. discriminate.
Qed.

Lemma frameInv_run (hov : bool) (s : State) (evs : list Event) :
  frameInv hov s -> alternating hov evs = true ->
  frameInv (hoverAfter hov evs)
    (runEvents [LMouseEnter; LMouseLeave; LResize] s evs).
Proof.
  unfold runEvents. revert hov s.
  induction evs as [| e t IH]; intros hov s Hi Ha; simpl in *; [exact Hi |].
  destruct e as [env | | env | ts].
  - apply andb_prop in Ha as [Hh Ha]. destruct hov; [discriminate |].
    apply IH; [apply frameInv_enter; exact Hi | exact Ha].
  - apply andb_prop in Ha as [Hh Ha]. destruct hov; [| discriminate].
    apply IH; [apply frameInv_leave; exact Hi | exact Ha].
  - apply IH; [apply frameInv_resize; exact Hi | exact Ha].
  - apply IH; [apply frameInv_frame; exact Hi | exact Ha].
Qed.

Lemma boot_cases (dom : Dom) :
  pending (raf (snd (boot dom))) = [] /\ animationId (snd (boot dom)) = None /\
  (fst (boot dom) = [] \/ fst (boot dom) = [LMouseEnter; LMouseLeave; LResize]).
Proof.
  destruct dom as [[cs |] red]; unfold boot, init, bind, modify, ret; simpl;
  [destruct (Nat.eqb (length cs) 6); [destruct red |] |]; simpl; auto.
Qed.

Lemma hoverAfter_leave (hov : bool) (evs : list Event) :
  hoverAfter hov (evs ++ [Leave]) = false.
Proof.
  revert hov. induction evs as [| e t IH]; intros hov; [reflexivity |].
  destruct e; simpl; apply IH.
Qed.

Lemma frameInv_boot (dom : Dom) : frameInv false (snd (boot dom)).
Proof.
  destruct (boot_cases dom) as [Hp [Ha _]]. split; [left; exact Hp | intros _; exact Ha].
Qed.

Lemma pendingOk_length (s : State) : pendingOk s -> (length (pending (raf s)) <= 1)%nat.
Proof. intros [Hp | [id [Hp _]]]; rewrite Hp; simpl; lia. Qed.

(** [handleMouseLeave] touches only the frame queue and [animationId] *)
Lemma leave_keeps (s : State) :
  cards (outcome (handleMouseLeave s)) = cards s /\
  progress (outcome (handleMouseLeave s)) = progress s /\
  basePositions (outcome (handleMouseLeave s)) = basePositions s /\
  positionsCaptured (outcome (handleMouseLeave s)) = positionsCaptured s.
Proof.
  destruct s as [g cs bp pr ai lt pc [nx pd]].
  unfold handleMouseLeave, bind, get; simpl.
  destruct ai; simpl; repeat split.
Qed.

(** * Sanity checks on concrete inputs *)

(** card 2 sits at ring position 5; at [progress = 5.5] it wraps past the
    end of the ring to coordinate 4.5 *)
Example ring_wraps : ringGeometry 5 (11 # 2) = (9 # 2, 4%Z, 5%Z, 1 # 2).
Proof. vm_compute. reflexivity. Qed.

(** at [progress = 0] every card stays on its own slot *)
Example no_progress_no_offset :
  applyPositions (mkState true sixCards hexBase 0 None None true (mkRaf 0 [])) =
  Ok tt (mkState true (repeat (TTranslate 0 0) 6) hexBase 0 None None true (mkRaf 0 [])).
Proof. vm_compute. reflexivity. Qed.

(** * Claims *)

(** C1: with ring order [[0,1,3,5,4,2]], six cards and [progress = 2.25],
    card 0 sits at ring position 0, its effective index is 2.25, the
    bracketing ring slots are [ring[2] = 3] and [ring[3] = 5] with weight
    0.25, and [applyPositions] gives card 0 the offset
    [lerp(base[3], base[5], 0.25) - base[0]] in each axis. *)
Theorem scenario_progress_2_25 (b0 b1 b2 b3 b4 b5 : Pos)
    (tf0 tf1 tf2 tf3 tf4 tf5 : Transform) (g : bool) (ai : option nat)
    (lt : option Q) (pc : bool) (r : Raf) :
  indexOf ringOrder 0 = 0%Z /\
  ringGeometry 0 (9 # 4) = (9 # 4, 2%Z, 3%Z, 1 # 4) /\
  at_ ringOrder 2 = Some 3%Z /\ at_ ringOrder 3 = Some 5%Z /\
  exists s',
    applyPositions (mkState g [tf0; tf1; tf2; tf3; tf4; tf5]
                      [b0; b1; b2; b3; b4; b5] (9 # 4) ai lt pc r) = Ok tt s' /\
    nth_error (cards s') 0 =
      Some (TTranslate (lerp (x b3) (x b5) (1 # 4) - x b0)
                       (lerp (y b3) (y b5) (1 # 4) - y b0)).
Proof.
  split; [reflexivity |]. split; [vm_compute; reflexivity |].
  split; [reflexivity |]. split; [reflexivity |].
  eexists. split; reflexivity.
Qed.

(** C3: for every card and every [progress >= 0], the weight
    [t = effective - floor(effective)] lies in [[0, 1)], [posA] is a ring
    position in [0..5] and [posB = (posA + 1) mod 6] is the next one, both
    naming a ring slot. *)
Theorem weight_and_bracket (i : nat) (p : Q) : (i < 6)%nat -> 0 <= p ->
  match ringGeometry (indexOf ringOrder (Z.of_nat i)) p with
  | (effective, posA, posB, t) =>
      t == effective - inject_Z (Qfloor effective) /\ 0 <= t /\ t < 1 /\
      (0 <= posA < 6)%Z /\ posB = ((posA + 1) mod 6)%Z /\
      exists a b, at_ ringOrder posA = Some a /\ at_ ringOrder posB = Some b
  end.
Proof.
  intros Hi Hp.
  pose proof (indexOf_cards i Hi) as Hr.
  pose proof (ringGeometry_spec (indexOf ringOrder (Z.of_nat i)) p ltac:(lia) Hp) as G.
  destruct (ringGeometry _ p) as [[[e posA] posB] t] eqn:Eg.
  destruct G as [_ [HA [HB [_ [T0 T1]]]]].
  assert (Et : t = e - inject_Z (Qfloor e)).
  { unfold ringGeometry in Eg. injection Eg as <- _ _ <-. reflexivity. }
  split; [rewrite Et; reflexivity |]. split; [exact T0 |]. split; [exact T1 |].
  split; [exact HA |]. split; [exact HB |].
  destruct (ringOrder_at posA HA) as [a [Ea _]].
  destruct (ringOrder_at posB) as [b [Eb _]]; [rewrite HB; apply Z.mod_pos_bound; lia |].
  eauto.
Qed.

(** C2: for every base-position list of six entries and [progress >= 0],
    the offset [applyPositions] gives a card is [P - base[card]], where [P]
    is the point of the closed ring path at coordinate [ringPos + progress]:
    the linear interpolation between the base positions of the two
    cyclically adjacent ring slots that coordinate lies between.  The path
    is continuous: on [[n-1, n)] it is segment [n-1] at weight
    [u - (n-1)], and at the boundary [n] its value (segment [n] at weight
    0) equals segment [n-1] at weight 1. *)
Theorem offsets_follow_ring_path (bp : list Pos) (p : Q) (i : nat) :
  length bp = 6%nat -> 0 <= p -> (i < 6)%nat ->
  (exists dx dy P bi,
      cardUpdate bp p i = SetTransform (TTranslate dx dy) /\
      ringPoint bp (inject_Z (indexOf ringOrder (Z.of_nat i)) + p) = Some P /\
      at_ bp (Z.of_nat i) = Some bi /\
      dx == x P - x bi /\ dy == y P - y bi) /\
  (forall (n : Z) (u : Q), inject_Z (n - 1) <= u -> u < inject_Z n ->
      posEq (ringPoint bp u) (segment bp (n - 1) (u - inject_Z (n - 1)))) /\
  (forall n : Z, posEq (ringPoint bp (inject_Z n)) (segment bp (n - 1) 1)).
Proof.
  intros Hl Hp Hi. split; [| split].
  - destruct (cardUpdate_geometry bp p i Hl Hp Hi) as [bi [pa [pb [Ebi [Ea [Eb G]]]]]].
    destruct (ringGeometry _ p) as [[[e posA] posB] t].
    destruct G as [Ht Ec].
    set (u := inject_Z (indexOf ringOrder (Z.of_nat i)) + p) in *.
    eexists _, _, _, bi. split; [exact Ec |].
    split; [unfold ringPoint; rewrite segment_slots, Ea, Eb; reflexivity |].
    split; [exact Ebi |]. simpl.
    split; apply Qplus_inj_r, lerp_compat; exact Ht.
  - intros n u H1 H2.
    assert (F : Qfloor u = (n - 1)%Z)
      by (apply Qfloor_unique; [exact H1 | rewrite Z.sub_add; exact H2]).
    unfold ringPoint. rewrite F. apply posEq_refl.
  - intros n. unfold ringPoint. rewrite Qfloor_Z, !segment_slots, Z.sub_add.
    destruct (ringSlot_some bp n Hl) as [pb Eb].
    destruct (ringSlot_some bp (n + 1) Hl) as [pc Ec].
    destruct (ringSlot_some bp (n - 1) Hl) as [pa Ea].
    rewrite Ea, Eb, Ec. simpl. unfold lerp. split; ring.
Qed.

(** C10: whenever [applyPositions] runs on six cards with six captured
    base positions (and [progress >= 0], as every frame leaves it), every
    card has a ring position ([indexOf] is never -1), every array read is
    defined (no card update fails), the update finishes without throwing,
    changes nothing but the cards, and gives each of the six cards a
    translation. *)
Theorem applyPositions_in_bounds (s : State) :
  length (cards s) = 6%nat -> length (basePositions s) = 6%nat -> 0 <= progress s ->
  (forall i, (i < 6)%nat -> indexOf ringOrder (Z.of_nat i) <> (-1)%Z) /\
  exists s',
    applyPositions s = Ok tt s' /\ s' = set_cards (cards s') s /\
    forall i, (i < 6)%nat -> exists dx dy,
      cardUpdate (basePositions s) (progress s) i = SetTransform (TTranslate dx dy) /\
      nth_error (cards s') i = Some (TTranslate dx dy).
Proof.
  intros Hc Hb Hp. split.
  - intros i Hi. pose proof (indexOf_cards i Hi). lia.
  - rewrite applyPositions_pure, Hc.
    assert (All : forall i, In i (seq 0 6) ->
                   exists tf, cardUpdate (basePositions s) (progress s) i = SetTransform tf).
    { intros i Hin. apply in_seq in Hin.
      destruct (cardUpdate_sets (basePositions s) (progress s) i Hb Hp ltac:(lia))
        as [dx [dy E]]. eauto. }
    destruct (applyPure_all_set (basePositions s) (progress s) (seq 0 6) (cards s)
                (seq_NoDup 6 0) All) as [H1 H2].
    destruct (applyPure _ _ _ _) as [ok cs] eqn:E. simpl in H1, H2. subst ok.
    eexists. split; [reflexivity |]. split; [destruct s; reflexivity |].
    intros i Hi.
    destruct (cardUpdate_sets (basePositions s) (progress s) i Hb Hp Hi) as [dx [dy Ei]].
    exists dx, dy. split; [exact Ei |]. simpl.
    apply H2; [simpl; lia | exact Ei | lia].
Qed.

(** C6: [captureBasePositions] leaves the cards' transforms as they were
    before the call (cleared for measuring, then restored) and changes
    nothing but [basePositions], which becomes each card's untransformed
    position relative to the grid, and [positionsCaptured]. *)
Theorem capture_restores_transforms (env : Env) (s : State) :
  captureBasePositions env s =
    Ok tt (set_positionsCaptured true
             (set_basePositions (measure env (map (fun _ => TEmpty) (cards s))) s)) /\
  measure env (map (fun _ => TEmpty) (cards s)) =
    map (fun i => mkPos (x (naturalRect env i) - x (gridRect env))
                        (y (naturalRect env i) - y (gridRect env)))
        (seq 0 (length (cards s))).
Proof.
  split; [destruct s; reflexivity | apply measure_cleared].
Qed.

(** C5: when positions are captured and the loop is running, the debounced
    resize at a width below the breakpoint stops the loop (no frame
    callback left pending), clears every card's transform, marks the
    positions uncaptured and resets [progress] to 0; a later
    [mouseenter] while the width is still below the breakpoint changes
    nothing. *)
Theorem narrow_resize_resets (env : Env) (s : State) (id : nat) :
  positionsCaptured s = true -> animationId s = Some id -> pending (raf s) = [id] ->
  (innerWidth env < minWidth)%Z ->
  exists s',
    resizeWork env s = Ok tt s' /\
    animationId s' = None /\ pending (raf s') = [] /\
    cards s' = map (fun _ => TEmpty) (cards s) /\
    positionsCaptured s' = false /\ progress s' = 0 /\
    (forall env', (innerWidth env' < minWidth)%Z -> handleMouseEnter env' s' = Ok tt s').
Proof.
  intros Hc Ha Hp Hw.
  destruct s as [g cs bp pr ai lt pc [nx pd]]; simpl in *; subst.
  apply Z.ltb_lt in Hw.
  eexists. split.
  - unfold resizeWork, bind, get, modify, cancelAnimationFrame. simpl.
    rewrite Hw. reflexivity.
  - simpl. rewrite Nat.eqb_refl. simpl.
    repeat split.
    intros env' Hw'. apply Z.ltb_lt in Hw'.
    unfold handleMouseEnter. rewrite Hw'. reflexivity.
Qed.

(** C7: running the debounced resize work twice in a row with the same
    window (width and layout) leaves the same transforms, [progress],
    [positionsCaptured], base positions, [lastTimestamp] and running
    status as running it once; below the breakpoint the second run
    changes nothing at all. *)
Theorem resize_twice_is_once (env : Env) (s : State) :
  let s1 := outcome (resizeWork env s) in
  let s2 := outcome (resizeWork env s1) in
  cards s2 = cards s1 /\ progress s2 = progress s1 /\
  positionsCaptured s2 = positionsCaptured s1 /\
  basePositions s2 = basePositions s1 /\
  lastTimestamp s2 = lastTimestamp s1 /\
  isSome (animationId s2) = isSome (animationId s1) /\
  ((innerWidth env < minWidth)%Z -> s2 = s1).
Proof.
  cbv zeta.
  rewrite (resizeWork_eq env s). cbv zeta.
  destruct (positionsCaptured s) eqn:Hc; simpl negb; cbv iota.
  2: { cbn [outcome]. rewrite resizeWork_eq, Hc. simpl. repeat split; auto. }
  destruct (innerWidth env <? minWidth)%Z eqn:Hw.
  { cbn [outcome]. rewrite resizeWork_eq. simpl. repeat split; auto. }
  assert (Hw' : ~ (innerWidth env < minWidth)%Z) by (apply Z.ltb_ge in Hw; lia).
  set (B := measure env (map (fun _ => TEmpty) (cards s))).
  rewrite applyPositions_pure. simpl. autorewrite with loop_fields. fold B.
  destruct (applyPure B (progress s) (seq 0 (length (cards s))) (cards s)) as [ok cs1] eqn:E.
  assert (Len : length cs1 = length (cards s))
    by (pose proof (applyPure_length B (progress s) (seq 0 (length (cards s))) (cards s)) as L;
        rewrite E in L; exact L).
  assert (Idem : applyPure B (progress s) (seq 0 (length (cards s))) cs1 = (ok, cs1))
    by (pose proof (applyPure_idem B (progress s) (seq 0 (length (cards s))) (cards s)
                      (seq_NoDup _ _)) as I; rewrite E in I; exact I).
  assert (Bm : measure env (map (fun _ => TEmpty) cs1) = B)
    by (unfold B; rewrite !measure_cleared, Len; reflexivity).
  destruct ok; [destruct (isSome (animationId s)) eqn:Ha |]; cbn [outcome];
  rewrite resizeWork_eq; simpl; autorewrite with loop_fields; simpl; rewrite Hw;
  rewrite applyPositions_pure; simpl; autorewrite with loop_fields; simpl;
  rewrite ?Bm, ?Len, ?Idem; simpl; autorewrite with loop_fields; simpl;
  rewrite ?Bm, ?Len, ?Idem; simpl; autorewrite with loop_fields; simpl;
  repeat split; try (intro; contradiction).
  all: autorewrite with loop_fields; reflexivity.
Qed.

(** C8: when [init] finds no grid, a card count other than 6, or reduced
    motion requested, it returns normally (nothing thrown) having
    registered no listener and left the animation state (base positions,
    progress, frame handle, last timestamp, captured flag, frame queue) at
    its initial values; with no listener, no later event ever changes the
    state, so no frame loop is ever started. *)
Theorem init_inapplicable_is_inert (dom : Dom) :
  (domGrid dom = None \/
   (exists cs, domGrid dom = Some cs /\ length cs <> 6%nat) \/
   domReducedMotion dom = true) ->
  exists s1,
    init dom initialState = Ok [] s1 /\
    basePositions s1 = basePositions initialState /\
    progress s1 = progress initialState /\
    animationId s1 = animationId initialState /\
    lastTimestamp s1 = lastTimestamp initialState /\
    positionsCaptured s1 = positionsCaptured initialState /\
    raf s1 = raf initialState /\
    forall evs, runEvents [] s1 evs = s1 /\ animationId (runEvents [] s1 evs) = None /\
                pending (raf (runEvents [] s1 evs)) = [].
Proof.
  intros H.
  assert (E : exists s1, init dom initialState = Ok [] s1 /\
            s1 = set_cards (match domGrid dom with Some cs => cs | None => [] end)
                   (set_grid (match domGrid dom with Some _ => true | None => false end)
                      initialState)).
  { destruct dom as [[cs |] red]; simpl in *; unfold init, bind, modify, ret; simpl.
    - destruct H as [H | [[cs' [Ec Hl]] | Hr]]; [discriminate | |].
      + injection Ec as <-. apply Nat.eqb_neq in Hl. rewrite Hl. simpl. eauto.
      + subst red. destruct (Nat.eqb (length cs) 6); simpl; eauto.
    - eauto. }
  destruct E as [s1 [Ei ->]]. exists (set_cards (match domGrid dom with Some cs => cs | None => [] end)
                   (set_grid (match domGrid dom with Some _ => true | None => false end)
                      initialState)).
  split; [exact Ei |]. repeat split; try reflexivity;
  rewrite runEvents_unregistered; reflexivity.
Qed.

(** [handleMouseEnter] requests a frame without cancelling the one held in
    [animationId]: two [mouseenter] events with no [mouseleave] between
    them, a sequence the browser never delivers, would leave two frame
    callbacks pending.  The bound on pending frames below rests on the
    browser alternating the two events. *)
Lemma double_enter_two_pending_frames :
  ~ (forall evs : list Event,
       (length (pending (raf (runEvents (fst (boot hexDom)) (snd (boot hexDom)) evs))) <= 1)%nat).
Proof.
  intros H. specialize (H [Enter wideEnv; Enter wideEnv]).
  vm_compute in H. lia.
Qed.

(** C9: along every event sequence the browser can deliver, where
    [mouseenter] and [mouseleave] alternate starting with the pointer
    outside, interleaved with any debounced resizes and frames, at most
    one frame callback is pending, and it is the one held in
    [animationId]. *)
Theorem single_pending_frame (dom : Dom) (evs : list Event) :
  alternating false evs = true ->
  pendingOk (runEvents (fst (boot dom)) (snd (boot dom)) evs) /\
  (length (pending (raf (runEvents (fst (boot dom)) (snd (boot dom)) evs))) <= 1)%nat.
Proof.
  intros Ha.
  assert (P : pendingOk (runEvents (fst (boot dom)) (snd (boot dom)) evs)).
  { destruct (boot_cases dom) as [Hp [_ [Hl | Hl]]]; rewrite Hl.
    - rewrite runEvents_unregistered by exact Hp. left. exact Hp.
    - apply (frameInv_run false _ evs (frameInv_boot dom) Ha). }
  split; [exact P | apply pendingOk_length; exact P].
Qed.

(** C4: a [mouseleave] (at the end of any event sequence the browser can
    deliver) cancels the pending frame and clears [animationId], while the
    cards' transforms, the progress, the base positions and the captured
    flag stay as they were just before it: the animation freezes, it does
    not reset.  After it, no frame at any timestamp, no further
    [mouseleave] and no [mouseenter] turned away by the width or
    reduced-motion guard changes anything: the state, and with it every
    card's transform, stays as the [mouseleave] left it.  (Debounced
    resizes are events of their own and are not in this list.) *)
Theorem frozen_after_leave (dom : Dom) (evs1 evs2 : list Event) :
  alternating false (evs1 ++ [Leave]) = true ->
  forallb frozenEvent evs2 = true ->
  let s0 := runEvents (fst (boot dom)) (snd (boot dom)) evs1 in
  let s1 := runEvents (fst (boot dom)) (snd (boot dom)) (evs1 ++ [Leave]) in
  cards s1 = cards s0 /\ progress s1 = progress s0 /\
  basePositions s1 = basePositions s0 /\ positionsCaptured s1 = positionsCaptured s0 /\
  animationId s1 = None /\ pending (raf s1) = [] /\
  runEvents (fst (boot dom)) s1 evs2 = s1.
Proof.
  intros Ha Hf s0 s1.
  destruct (boot_cases dom) as [Hp [Hb [Hl | Hl]]];
    subst s0 s1; rewrite Hl in *.
  - rewrite !(runEvents_unregistered _ _ Hp).
    repeat split; auto.
  - pose proof (frameInv_run false _ _ (frameInv_boot dom) Ha) as Hi.
    rewrite hoverAfter_leave in Hi.
    assert (E : runEvents [LMouseEnter; LMouseLeave; LResize] (snd (boot dom)) (evs1 ++ [Leave])
                = outcome (handleMouseLeave
                    (runEvents [LMouseEnter; LMouseLeave; LResize] (snd (boot dom)) evs1)))
      by (unfold runEvents; rewrite fold_left_app; reflexivity).
    set (s1 := runEvents _ (snd (boot dom)) (evs1 ++ [Leave])) in *.
    destruct Hi as [Hok Hn]. specialize (Hn eq_refl).
    assert (Hp1 : pending (raf s1) = []).
    { destruct Hok as [H | [id [_ H]]]; [exact H | congruence]. }
    destruct (leave_keeps (runEvents [LMouseEnter; LMouseLeave; LResize] (snd (boot dom)) evs1))
      as (K1 & K2 & K3 & K4).
    rewrite <- E in K1, K2, K3, K4.
    split; [exact K1 |]. split; [exact K2 |]. split; [exact K3 |]. split; [exact K4 |].
    split; [exact Hn |]. split; [exact Hp1 |].
    clearbody s1. clear E.
    unfold runEvents. induction evs2 as [| e t IH]; [reflexivity |].
    simpl in Hf. apply andb_prop in Hf as [He Hf].
    simpl. replace (dispatch _ s1 e) with s1; [apply IH; exact Hf |].
    destruct e as [env | | env | ts]; simpl in He |- *.
    + destruct (enter_loop env s1) as [[_ E] | [Hg _]]; [rewrite E; reflexivity | congruence].
    + unfold handleMouseLeave, bind, get. rewrite Hn. reflexivity.
    + discriminate.
    + unfold runFrame. rewrite Hp1. destruct s1 as [g cs bp pr ai lt pc [nx pd]].
      simpl in *. subst. reflexivity.
Qed.

(** * Witnesses: the claims' theorems at concrete inputs *)

Lemma offsets_follow_ring_path_witness :
  length hexBase = 6%nat /\ 0 <= 9 # 4 /\ (0 < 6)%nat /\
  ((exists dx dy P bi,
      cardUpdate hexBase (9 # 4) 0 = SetTransform (TTranslate dx dy) /\
      ringPoint hexBase (inject_Z (indexOf ringOrder (Z.of_nat 0)) + (9 # 4)) = Some P /\
      at_ hexBase (Z.of_nat 0) = Some bi /\
      dx == x P - x bi /\ dy == y P - y bi) /\
   (forall (n : Z) (u : Q), inject_Z (n - 1) <= u -> u < inject_Z n ->
      posEq (ringPoint hexBase u) (segment hexBase (n - 1) (u - inject_Z (n - 1)))) /\
   (forall n : Z, posEq (ringPoint hexBase (inject_Z n)) (segment hexBase (n - 1) 1))).
Proof.
  split; [reflexivity |]. split; [apply Qle_bool_iff; reflexivity |]. split; [lia |].
  apply (offsets_follow_ring_path hexBase (9 # 4) 0);
    [reflexivity | apply Qle_bool_iff; reflexivity | lia].
Defined.

Lemma weight_and_bracket_witness :
  (0 < 6)%nat /\ 0 <= 9 # 4 /\
  match ringGeometry (indexOf ringOrder (Z.of_nat 0)) (9 # 4) with
  | (effective, posA, posB, t) =>
      t == effective - inject_Z (Qfloor effective) /\ 0 <= t /\ t < 1 /\
      (0 <= posA < 6)%Z /\ posB = ((posA + 1) mod 6)%Z /\
      exists a b, at_ ringOrder posA = Some a /\ at_ ringOrder posB = Some b
  end.
Proof.
  split; [lia |]. split; [apply Qle_bool_iff; reflexivity |].
  apply (weight_and_bracket 0 (9 # 4)); [lia | apply Qle_bool_iff; reflexivity].
Defined.

Lemma frozen_after_leave_witness :
  alternating false ([Enter wideEnv; Frame 0; Frame 16] ++ [Leave]) = true /\
  forallb frozenEvent [Frame 32; Frame 5000; Enter narrowEnv; Leave] = true /\
  let s0 := runEvents (fst (boot hexDom)) (snd (boot hexDom))
              [Enter wideEnv; Frame 0; Frame 16] in
  let s1 := runEvents (fst (boot hexDom)) (snd (boot hexDom))
              ([Enter wideEnv; Frame 0; Frame 16] ++ [Leave]) in
  cards s1 = cards s0 /\ progress s1 = progress s0 /\
  basePositions s1 = basePositions s0 /\ positionsCaptured s1 = positionsCaptured s0 /\
  animationId s1 = None /\ pending (raf s1) = [] /\
  runEvents (fst (boot hexDom)) s1 [Frame 32; Frame 5000; Enter narrowEnv; Leave] = s1.
Proof.
  split; [reflexivity |]. split; [reflexivity |].
  apply frozen_after_leave; reflexivity.
Defined.

Lemma narrow_resize_resets_witness :
  let s := mkState true sixCards hexBase (9 # 4) (Some 0%nat) None true (mkRaf 1 [0%nat]) in
  positionsCaptured s = true /\ animationId s = Some 0%nat /\ pending (raf s) = [0%nat] /\
  (innerWidth narrowEnv < minWidth)%Z /\
  exists s',
    resizeWork narrowEnv s = Ok tt s' /\
    animationId s' = None /\ pending (raf s') = [] /\
    cards s' = map (fun _ => TEmpty) (cards s) /\
    positionsCaptured s' = false /\ progress s' = 0 /\
    (forall env', (innerWidth env' < minWidth)%Z -> handleMouseEnter env' s' = Ok tt s').
Proof.
  intros s. split; [reflexivity |]. split; [reflexivity |]. split; [reflexivity |].
  split; [vm_compute; reflexivity |].
  apply (narrow_resize_resets narrowEnv s 0); [reflexivity | reflexivity | reflexivity |].
  vm_compute. reflexivity.
Defined.

Lemma resize_twice_is_once_witness :
  let s := mkState true sixCards hexBase (9 # 4) (Some 0%nat) None true (mkRaf 1 [0%nat]) in
  (innerWidth narrowEnv < minWidth)%Z /\
  outcome (resizeWork narrowEnv (outcome (resizeWork narrowEnv s)))
  = outcome (resizeWork narrowEnv s).
Proof.
  intros s. split; [vm_compute; reflexivity |].
  destruct (resize_twice_is_once narrowEnv s) as [_ [_ [_ [_ [_ [_ H]]]]]].
  apply H. vm_compute. reflexivity.
Defined.

Lemma init_inapplicable_is_inert_witness :
  domGrid (mkDom None false) = None /\
  exists s1,
    init (mkDom None false) initialState = Ok [] s1 /\
    basePositions s1 = basePositions initialState /\
    progress s1 = progress initialState /\
    animationId s1 = animationId initialState /\
    lastTimestamp s1 = lastTimestamp initialState /\
    positionsCaptured s1 = positionsCaptured initialState /\
    raf s1 = raf initialState /\
    forall evs, runEvents [] s1 evs = s1 /\ animationId (runEvents [] s1 evs) = None /\
                pending (raf (runEvents [] s1 evs)) = [].
Proof.
  split; [reflexivity |].
  apply init_inapplicable_is_inert. left. reflexivity.
Defined.

Lemma single_pending_frame_witness :
  let evs := [Enter wideEnv; Frame 0; Frame 16; Resize wideEnv; Leave; Frame 50] in
  alternating false evs = true /\
  pendingOk (runEvents (fst (boot hexDom)) (snd (boot hexDom)) evs) /\
  (length (pending (raf (runEvents (fst (boot hexDom)) (snd (boot hexDom)) evs))) <= 1)%nat.
Proof.
  intros evs. split; [reflexivity |].
  apply single_pending_frame. reflexivity.
Defined.

Lemma applyPositions_in_bounds_witness :
  let s := mkState true sixCards hexBase (9 # 4) None None true (mkRaf 0 []) in
  length (cards s) = 6%nat /\ length (basePositions s) = 6%nat /\ 0 <= progress s /\
  (forall i, (i < 6)%nat -> indexOf ringOrder (Z.of_nat i) <> (-1)%Z) /\
  exists s',
    applyPositions s = Ok tt s' /\ s' = set_cards (cards s') s /\
    forall i, (i < 6)%nat -> exists dx dy,
      cardUpdate (basePositions s) (progress s) i = SetTransform (TTranslate dx dy) /\
      nth_error (cards s') i = Some (TTranslate dx dy).
Proof.
  intros s. split; [reflexivity |]. split; [reflexivity |].
  split; [apply Qle_bool_iff; reflexivity |].
  apply applyPositions_in_bounds; [reflexivity | reflexivity | apply Qle_bool_iff; reflexivity].
Defined.
(** * Lemmas: debounced resize *)

Lemma handleResize_ok (now : Q) (w : RWorld) :
  timersOk w ->
  timer_queue (rwTimers (handleResize now w)) = [(timer_next (rwTimers w), now + 150)] /\
  resizeTimer (handleResize now w) = Some (timer_next (rwTimers w)) /\
  timer_next (rwTimers (handleResize now w)) = S (timer_next (rwTimers w)) /\
  rwState (handleResize now w) = rwState w.
Proof.
  destruct w as [s [n q] r]; unfold timersOk; simpl.
  intros [Hq | (id & due & Hq & Hr)]; subst.
  - destruct r; simpl; repeat split.
  - simpl. rewrite Nat.eqb_refl. simpl. repeat split.
Qed.

Lemma timersOk_handleResize (now : Q) (w : RWorld) :
  timersOk w -> timersOk (handleResize now w).
Proof.
  intros H. destruct (handleResize_ok now w H) as (Hq & Hr & _).
  right. eauto.
Qed.

Lemma timersOk_advance (env : Env) (now : Q) (w : RWorld) :
  timersOk w -> timersOk (advanceTime env now w).
Proof.
  destruct w as [s [n q] r]; unfold timersOk, advanceTime; simpl.
  intros [Hq | (id & due & Hq & Hr)]; subst; simpl.
  - left; reflexivity.
  - destruct (Qle_bool due now); simpl; eauto.
Qed.

Lemma timersOk_run (w : RWorld) (evs : list TimeEvent) :
  timersOk w -> timersOk (runTime w evs).
Proof.
  unfold runTime. revert w. induction evs as [|e evs IH]; intros w H; simpl.
  - exact H.
  - apply IH. destruct e; simpl.
    + apply timersOk_handleResize; exact H.
    + apply timersOk_advance; exact H.
Qed.

Lemma burst_ok (w : RWorld) (ts : list Q) (tl : Q) :
  timersOk w ->
  let w' := fold_left (fun w t => handleResize t w) (ts ++ [tl]) w in
  timer_queue (rwTimers w') = [((timer_next (rwTimers w) + length ts)%nat, tl + 150)] /\
  resizeTimer w' = Some (timer_next (rwTimers w) + length ts)%nat /\
  rwState w' = rwState w.
Proof.
  revert w. induction ts as [|t ts IH]; intros w H; simpl.
  - destruct (handleResize_ok tl w H) as (Hq & Hr & _ & Hs).
    rewrite Nat.add_0_r. auto.
  - destruct (handleResize_ok t w H) as (Hq & Hr & Hn & Hs).
    destruct (IH (handleResize t w) (timersOk_handleResize t w H)) as (Hq' & Hr' & Hs').
    rewrite Hn, Hs, <- plus_n_Sm in *. simpl in *. auto.
Qed.

(** * Properties of the rest of main.js *)

(** X1 (handleResize, lines 431-461): from the page load (no timer, 
    [resizeTimer = null]), whatever resize events and timer firings
    happen, at most one resize timer is pending, and it is the one held
    in [resizeTimer]. *)
Theorem at_most_one_resize_timer (s : State) (n : nat) (evs : list TimeEvent) :
  timersOk (runTime (mkRWorld s (mkTimers n []) None) evs).
Proof.
  apply timersOk_run. left; reflexivity.
Qed.

(** X2 (handleResize, lines 431-461): after a burst of resize events
    with no timer firing in between, the debounced work runs exactly once
    when time reaches 150 ms after the last event, leaving no timer
    pending; before that moment, advancing the time changes nothing. *)
Theorem resize_burst_runs_once (env : Env) (w : RWorld) (ts : list Q) (tl T : Q) :
  timersOk w ->
  let w' := fold_left (fun w t => handleResize t w) (ts ++ [tl]) w in
  (tl + 150 <= T ->
     rwState (advanceTime env T w') = outcome (resizeWork env (rwState w)) /\
     timer_queue (rwTimers (advanceTime env T w')) = []) /\
  (T < tl + 150 -> advanceTime env T w' = w').
Proof.
  intros H w'. destruct (burst_ok w ts tl H) as (Hq & _ & Hs). fold w' in Hq, Hs.
  destruct w' as [s' [n' q'] r']. simpl in *. subst q' s'.
  unfold advanceTime; simpl. split.
  - intros HT. apply Qle_bool_iff in HT. rewrite HT. simpl. split; reflexivity.
  - intros HT. destruct (Qle_bool (tl + 150) T) eqn:E.
    + apply Qle_bool_iff in E. exfalso. apply (Qlt_not_le _ _ HT E).
    + reflexivity.
Qed.

Import Portfolio.

(** * Lemmas: strings *)

Lemma jseqb_eq (a b : jsstr) : jseqb a b = true <-> a = b.
Proof.
  revert b. induction a as [|c a IH]; intros [|d b]; simpl; split; intros H;
    try discriminate; try reflexivity.
  - apply andb_true_iff in H as [H1 H2]. apply Z.eqb_eq in H1. apply IH in H2. congruence.
  - injection H as -> ->. rewrite Z.eqb_refl. apply IH. reflexivity.
Qed.

Lemma includes_app_r (a b pat : jsstr) :
  includes b pat = true -> includes (a ++ b) pat = true.
Proof.
  intros H. induction a as [|c a IH]; simpl.
  - exact H.
  - rewrite IH. apply orb_true_r.
Qed.

Lemma dropWhile_app (p : Z -> bool) (a b : jsstr) :
  dropWhile p (a ++ b) = if forallb p a then dropWhile p b else dropWhile p a ++ b.
Proof.
  induction a as [|c a IH]; simpl.
  - reflexivity.
  - destruct (p c); simpl.
    + exact IH.
    + reflexivity.
Qed.

(** trimming the end stops at a last code unit that is not white space *)
Lemma trim_end (s : jsstr) (c : Z) :
  isWhiteSpace c = false -> rev (trimStart (rev (s ++ [c]))) = s ++ [c].
Proof.
  intros H. unfold trimStart. rewrite rev_app_distr. simpl. rewrite H.
  change (c :: rev s) with (rev [c] ++ rev s).
  rewrite <- rev_app_distr, rev_involutive. reflexivity.
Qed.

(** [`${rel} noopener noreferrer`.trim()] *)
Lemma trim_rel (rel : jsstr) :
  trim (rel ++ js " noopener noreferrer") =
  if forallb isWhiteSpace rel then js "noopener noreferrer"
  else trimStart rel ++ js " noopener noreferrer".
Proof.
  unfold trim, trimStart. rewrite dropWhile_app.
  destruct (forallb isWhiteSpace rel).
  - reflexivity.
  - change (js " noopener noreferrer") with (js " noopener noreferre" ++ [114%Z]).
    rewrite app_assoc. apply trim_end. reflexivity.
Qed.

Lemma secureLink_spec (relAttr : option jsstr) :
  let rel := match relAttr with Some r => r | None => [] end in
  secureLink relAttr =
  if includes rel (js "noopener") then relAttr
  else Some (if forallb isWhiteSpace rel then js "noopener noreferrer"
             else trimStart rel ++ js " noopener noreferrer").
Proof.
  intros rel. unfold secureLink. fold rel. rewrite <- trim_rel.
  destruct (includes rel (js "noopener")); reflexivity.
Qed.

(** the result of [secureLink] is a [rel] that contains "noopener" *)
Lemma secureLink_noopener (relAttr : option jsstr) :
  exists r, secureLink relAttr = Some r /\ includes r (js "noopener") = true.
Proof.
  rewrite secureLink_spec.
  destruct (includes (match relAttr with Some r => r | None => [] end) (js "noopener")) eqn:E.
  - destruct relAttr as [r|]; [|discriminate]. eauto.
  - eexists; split; [reflexivity|].
    destruct (forallb isWhiteSpace _).
    + reflexivity.
    + apply includes_app_r. reflexivity.
Qed.

Lemma secureLink_idem (relAttr : option jsstr) :
  secureLink (secureLink relAttr) = secureLink relAttr.
Proof.
  destruct (secureLink_noopener relAttr) as (r & Hr & Hi).
  rewrite Hr. unfold secureLink. rewrite Hi. reflexivity.
Qed.

(** * Lemmas: the smooth-scroll handler *)

Lemma getElementById_some (doc : list Elem) (id : jsstr) (t : Elem) :
  getElementById doc id = Some t -> In t doc /\ elemID t = Some id.
Proof.
  unfold getElementById. intros H. apply find_some in H as [Hin Ht].
  split; [exact Hin|].
  destruct (elemID t) as [i|]; [|discriminate].
  apply jseqb_eq in Ht. congruence.
Qed.

(** no element has the empty string as its ID *)
Lemma getElementById_empty (doc : list Elem) : getElementById doc [] = None.
Proof.
  unfold getElementById. induction doc as [|e doc IH]; simpl.
  - reflexivity.
  - unfold elemID. destruct (idAttr e) as [[|c i]|]; simpl; exact IH.
Qed.

Lemma hash_slice1 (h : jsstr) : startsWith h (js "#") = true -> js "#" ++ slice1 h = h.
Proof.
  destruct h as [|c t]; cbn -[Z.eqb]; [discriminate|].
  intros H. apply andb_true_iff in H as [H _]. apply Z.eqb_eq in H. subst c. reflexivity.
Qed.

(** * Lemmas: the observer callback *)

Lemma classListAdd_in (t u : jsstr) (cl : list jsstr) :
  In u (classListAdd t cl) <-> In u cl \/ u = t.
Proof.
  unfold classListAdd. destruct (existsb (jseqb t) cl) eqn:E.
  - apply existsb_exists in E as (v & Hv & Ht). apply jseqb_eq in Ht. subst v.
    split; [auto|]. intros [H | ->]; assumption.
  - rewrite in_app_iff. simpl. intuition.
Qed.

Lemma classListAdd_nodup (t : jsstr) (cl : list jsstr) :
  NoDup cl -> NoDup (classListAdd t cl).
Proof.
  unfold classListAdd. destruct (existsb (jseqb t) cl) eqn:E; intros H.
  - exact H.
  - apply NoDup_app; auto.
    + constructor; [intros []|constructor].
    + intros u Hu [Hut|[]]. subst u.
      assert (existsb (jseqb t) cl = true) as E'
        by (apply existsb_exists; exists t; split; [exact Hu | apply jseqb_eq; reflexivity]).
      congruence.
Qed.

Lemma nth_error_upd {A} (l : list A) (i j : nat) (v : A) :
  nth_error (upd l i v) j =
  match nth_error l j with
  | Some a => Some (if Nat.eqb i j then v else a)
  | None => None
  end.
Proof.
  revert i j. induction l as [|h t IH]; intros [|i] [|j]; simpl; auto.
  destruct (nth_error t j); reflexivity.
Qed.

Lemma observeEntry_nth (cls : list (list jsstr)) (e : Entry) (i : nat) (c : list jsstr) :
  nth_error cls i = Some c ->
  nth_error (observeEntry cls e) i =
  Some (if isIntersecting e && Nat.eqb (entryTarget e) i
        then classListAdd (js "is-visible") c else c).
Proof.
  intros H. unfold observeEntry. destruct (isIntersecting e); simpl; [|exact H].
  destruct (nth_error cls (entryTarget e)) as [cl|] eqn:E.
  - rewrite nth_error_upd, H.
    destruct (Nat.eqb_spec (entryTarget e) i); [subst; congruence | reflexivity].
  - destruct (Nat.eqb_spec (entryTarget e) i); [subst; congruence | exact H].
Qed.

Lemma observe_fold (es : list Entry) (cls : list (list jsstr)) (i : nat) (c : list jsstr) :
  nth_error cls i = Some c ->
  exists c', nth_error (fold_left observeEntry es cls) i = Some c' /\
    incl c c' /\
    (In (js "is-visible") c' <->
       In (js "is-visible") c \/
       exists e, In e es /\ entryTarget e = i /\ isIntersecting e = true) /\
    (NoDup c -> NoDup c').
Proof.
  revert cls c. induction es as [|e es IH]; intros cls c H; simpl.
  - exists c. split; [exact H|]. split; [apply incl_refl|]. split; [|auto].
    split.
    + intros Hc; left; exact Hc.
    + intros [Hc|(e & [] & _)]; exact Hc.
  - apply (observeEntry_nth cls e) in H.
    destruct (IH _ _ H) as (c' & H' & Hincl & Hvis & Hnd).
    exists c'. split; [exact H'|].
    destruct (isIntersecting e && Nat.eqb (entryTarget e) i) eqn:E.
    + apply andb_true_iff in E as [E1 E2]. apply Nat.eqb_eq in E2.
      repeat split.
      * intros u Hu. apply Hincl, classListAdd_in. auto.
      * intros _. right. exists e. auto.
      * intros _. apply Hvis. left. apply classListAdd_in. auto.
      * intros Hc. apply Hnd, classListAdd_nodup, Hc.
    + repeat split.
      * exact Hincl.
      * intros Hc. apply Hvis in Hc as [Hc|(e' & He' & Ht & Hi)]; [auto|].
        right. exists e'. auto.
      * intros [Hc|(e' & [He'|He'] & Ht & Hi)].
        -- apply Hvis. auto.
        -- subst e'. rewrite Hi, Ht, Nat.eqb_refl in E. discriminate.
        -- apply Hvis. right. exists e'. auto.
      * exact Hnd.
Qed.

Lemma runObserver_concat (batches : list (list Entry)) (cls : list (list jsstr)) :
  runObserver batches cls = fold_left observeEntry (concat batches) cls.
Proof.
  unfold runObserver, observerCallback. revert cls.
  induction batches as [|b bs IH]; intros cls; simpl.
  - reflexivity.
  - rewrite fold_left_app. apply IH.
Qed.

(** * Lemmas: init *)

Lemma init_initialized (env : PEnv) (p : Page) : isInitialized (init env p) = true.
Proof.
  destruct p as [ini dbg ls ob rs ys cs], env as [rm an sk yr].
  destruct ini, dbg, rm, sk; reflexivity.
Qed.

Lemma init_again (env : PEnv) (p : Page) :
  isInitialized p = true ->
  init env p = set_console (console p ++ [Warn "[Portfolio] Already initialized"]) p.
Proof.
  intros H. unfold init. rewrite H. reflexivity.
Qed.

(** X3 (initExternalLinks, lines 99-110): after [initExternalLinks] every
    [a[target="_blank"]] link has a [rel] attribute, and it contains
    "noopener". *)
Theorem external_links_noopener (p : Page) :
  Forall (fun a => exists r, a = Some r /\ includes r (js "noopener") = true)
    (relAttrs (initExternalLinks p)).
Proof.
  assert (relAttrs (initExternalLinks p) = map secureLink (relAttrs p)) as ->
    by (unfold initExternalLinks, log; destruct (debug _); reflexivity).
  apply Forall_forall. intros a Ha. apply in_map_iff in Ha as (a0 & <- & _).
  apply secureLink_noopener.
Qed.

(** X4 (initExternalLinks, lines 99-110): running [initExternalLinks] a
    second time leaves every link's [rel] as the first run left it. *)
Theorem external_links_idempotent (p : Page) :
  relAttrs (initExternalLinks (initExternalLinks p)) = relAttrs (initExternalLinks p).
Proof.
  assert (forall q, relAttrs (initExternalLinks q) = map secureLink (relAttrs q)) as E
    by (intros q; unfold initExternalLinks, log; destruct (debug _); reflexivity).
  rewrite !E, map_map. apply map_ext. apply secureLink_idem.
Qed.

(** X5 (initExternalLinks, lines 102-106): a link whose [rel] already
    contains "noopener" keeps its [rel] unchanged (no "noreferrer" is
    added); otherwise a missing or blank [rel] becomes
    "noopener noreferrer", and any other [rel] keeps its text, minus
    leading white space, followed by " noopener noreferrer". *)
Theorem secureLink_rel (relAttr : option jsstr) :
  let rel := match relAttr with Some r => r | None => [] end in
  secureLink relAttr =
  if includes rel (js "noopener") then relAttr
  else if forallb isWhiteSpace rel then Some (js "noopener noreferrer")
  else Some (trimStart rel ++ js " noopener noreferrer").
Proof.
  intros rel. rewrite secureLink_spec. fold rel.
  destruct (includes rel (js "noopener")); [reflexivity|].
  destruct (forallb isWhiteSpace rel); reflexivity.
Qed.

(** X6 (initSmoothScroll, lines 37-55): a click either has no effect, or
    its nearest [a[href^="#"]] ancestor has an [href] naming an element
    of the page by its ID; the handler then prevents the default action,
    scrolls that element into view and pushes a URL equal to the link's
    [href]. *)
Theorem smooth_scroll_pushes_href (doc chain : list Elem) :
  smoothScrollClick doc chain = [] \/
  exists anchor href t,
    closest matchesAnchor chain = Some anchor /\ hrefAttr anchor = Some href /\
    In t doc /\ elemID t = Some (slice1 href) /\
    smoothScrollClick doc chain = [PreventDefault; ScrollIntoView t; PushState href].
Proof.
  unfold smoothScrollClick.
  destruct (closest matchesAnchor chain) as [anchor|] eqn:Ha; [|left; reflexivity].
  destruct (hrefAttr anchor) as [href|] eqn:Hh; [|left; reflexivity].
  destruct (getElementById doc (slice1 href)) as [t|] eqn:Ht; [|left; reflexivity].
  right. exists anchor, href, t.
  apply find_some in Ha as [_ Hm]. unfold matchesAnchor in Hm. rewrite Hh in Hm.
  apply andb_true_iff in Hm as [_ Hm].
  apply getElementById_some in Ht as [Hin Hid].
  rewrite (hash_slice1 href Hm). auto.
Qed.

(** X7 (initSmoothScroll, lines 42-45): a click on a link whose [href] is
    just "#" is left to the browser: no element has the empty ID, so the
    handler neither prevents the default action nor scrolls nor pushes a
    URL. *)
Theorem smooth_scroll_bare_hash (doc chain : list Elem) (anchor : Elem) :
  closest matchesAnchor chain = Some anchor ->
  hrefAttr anchor = Some (js "#") ->
  smoothScrollClick doc chain = [].
Proof.
  intros Ha Hh. unfold smoothScrollClick. rewrite Ha, Hh.
  change (slice1 (js "#")) with (@nil Z). rewrite getElementById_empty. reflexivity.
Qed.

(** X8 (initScrollAnimations, lines 73-81): over any sequence of observer
    callbacks, an element's classes are only ever added to, its class
    list stays free of duplicates, and it carries "is-visible" exactly
    when it had it before or some entry reported it intersecting. *)
Theorem observer_classes_monotone (batches : list (list Entry))
  (classes : list (list jsstr)) (i : nat) (c : list jsstr) :
  nth_error classes i = Some c ->
  exists c', nth_error (runObserver batches classes) i = Some c' /\
    incl c c' /\ (NoDup c -> NoDup c') /\
    (In (js "is-visible") c' <->
       In (js "is-visible") c \/
       exists b e, In b batches /\ In e b /\ entryTarget e = i /\ isIntersecting e = true).
Proof.
  intros H. rewrite runObserver_concat.
  destruct (observe_fold (concat batches) classes i c H) as (c' & H' & Hi & Hv & Hn).
  exists c'. repeat split; auto.
  - intros Hc. apply Hv in Hc as [Hc|(e & He & Ht & Hx)]; [auto|].
    apply in_concat in He as (b & Hb & He). right. exists b, e. auto.
  - intros [Hc|(b & e & Hb & He & Ht & Hx)]; apply Hv; [auto|].
    right. exists e. split; [apply in_concat; exists b; auto | auto].
Qed.

(** X9 (init, lines 187-203): calling [Portfolio.init] again any number
    of times changes nothing but the console, which gets one
    "Already initialized" warning per extra call: no listener, observer,
    link or text is set up twice. *)
Theorem portfolio_init_once (env : PEnv) (envs : list PEnv) (p : Page) :
  fold_left (fun q e => init e q) envs (init env p) =
  set_console (console (init env p) ++
               repeat (Warn "[Portfolio] Already initialized") (length envs))
    (init env p).
Proof.
  generalize (init_initialized env p). generalize (init env p) as q.
  induction envs as [|e envs IH]; intros q Hq; simpl.
  - rewrite app_nil_r. destruct q; reflexivity.
  - rewrite (init_again e q Hq). rewrite IH by exact Hq.
    destruct q; unfold set_console; simpl. rewrite <- app_assoc. reflexivity.
Qed.

(** X10 (log and init, lines 27-31 and 187-203): with debug off, the
    first [Portfolio.init] writes nothing to the console but the four
    easter-egg lines. *)
Theorem init_console_without_debug (env : PEnv) (p : Page) :
  isInitialized p = false -> debug p = false ->
  console (init env p) = console p ++ [EasterEgg 1; EasterEgg 2; EasterEgg 3; EasterEgg 4].
Proof.
  destruct p as [ini dbg ls ob rs ys cs], env as [rm an sk yr]; simpl. intros -> ->.
  destruct rm, sk; reflexivity.
Qed.

(** * Witnesses: the extra properties at concrete inputs *)

Lemma resize_burst_runs_once_witness :
  timersOk (mkRWorld initialState (mkTimers 0 []) None) /\
  rwState (advanceTime wideEnv 300
    (fold_left (fun w t => handleResize t w) ([0; 50] ++ [100])
       (mkRWorld initialState (mkTimers 0 []) None))) =
  outcome (resizeWork wideEnv initialState).
Proof.
  split; [left; reflexivity|].
  destruct (resize_burst_runs_once wideEnv (mkRWorld initialState (mkTimers 0 []) None)
              [0; 50] 100 300 (or_introl eq_refl)) as [H _].
  apply H. apply Qle_bool_iff. reflexivity.
Defined.

Lemma smooth_scroll_bare_hash_witness :
  closest matchesAnchor [mkElem "span" None None; mkElem "a" (Some (js "#")) None] =
    Some (mkElem "a" (Some (js "#")) None) /\
  smoothScrollClick [mkElem "section" None (Some [])]
    [mkElem "span" None None; mkElem "a" (Some (js "#")) None] = [].
Proof.
  split; [reflexivity|].
  apply (smooth_scroll_bare_hash _ _ (mkElem "a" (Some (js "#")) None)); reflexivity.
Defined.

Lemma observer_classes_monotone_witness :
  nth_error [[js "card"]; []] 0 = Some [js "card"] /\
  exists c', nth_error (runObserver [[mkEntry 0 true; mkEntry 1 false]] [[js "card"]; []]) 0
               = Some c' /\
    incl [js "card"] c' /\ (NoDup [js "card"] -> NoDup c') /\
    (In (js "is-visible") c' <->
       In (js "is-visible") [js "card"] \/
       exists b e, In b [[mkEntry 0 true; mkEntry 1 false]] /\ In e b /\
                   entryTarget e = 0%nat /\ isIntersecting e = true).
Proof.
  split; [reflexivity|].
  apply observer_classes_monotone. reflexivity.
Defined.

Lemma init_console_without_debug_witness :
  isInitialized (mkPage false false [] [] [None; Some (js "author")] [Text []] []) = false /\
  debug (mkPage false false [] [] [None; Some (js "author")] [Text []] []) = false /\
  console (init (mkPEnv false [1; 2]%nat true 2026)
             (mkPage false false [] [] [None; Some (js "author")] [Text []] [])) =
  [EasterEgg 1; EasterEgg 2; EasterEgg 3; EasterEgg 4].
Proof.
  split; [reflexivity|]. split; [reflexivity|].
  apply (init_console_without_debug (mkPEnv false [1; 2]%nat true 2026)
           (mkPage false false [] [] [None; Some (js "author")] [Text []] []));
    reflexivity.
Defined.
